(** * SparkyRNG: xoshiro256** engine and the sampling layer of [sparkyrng.hpp]

    A shallow embedding of [sparkyrng.hpp].  A [uint64_t] is an integer of [Z]
    and every operation that can leave the range [0, 2^64) is wrapped with
    [wrap64]; the engine state [std::array<uint64_t, 4>] is a record of four
    words read and written through an index; member functions take the engine
    and return the engine they leave behind. *)

From Stdlib Require Import ZArith Lia List Bool QArith Qpower Permutation.
From Stdlib Require Import Floats.PrimFloat Floats.FloatOps Floats.SpecFloat.
Import ListNotations.

Local Open Scope Z_scope.

(** ** 64-bit unsigned arithmetic *)

Module Word64.

Definition modulus : Z := 2 ^ 64.

Definition word64 (x : Z) : Prop := 0 <= x < modulus.

Definition wrap64 (x : Z) : Z := x mod modulus.

(** [a + b], [a * b] and [-a] on [uint64_t]. *)
Definition add64 (a b : Z) : Z := wrap64 (a + b).
Definition mul64 (a b : Z) : Z := wrap64 (a * b).
Definition neg64 (a : Z) : Z := wrap64 (- a).

(** [x << k] and [x >> k] on [uint64_t], for a shift count the language
    defines, [0 <= k < 64]. *)
Definition shl64 (x k : Z) : Z := wrap64 (Z.shiftl x k).
Definition shr64 (x k : Z) : Z := Z.shiftr x k.

(** A shift whose count is a run-time [int]: the language defines it only
    for counts in [0, 64). *)
Definition shift_defined (k : Z) : bool := (0 <=? k) && (k <? 64).

Definition shr64_checked (x k : Z) : option Z :=
  if shift_defined k then Some (shr64 x k) else None.

(** [a % b] on [uint64_t]; division by zero is undefined. *)
Definition umod64 (a b : Z) : option Z :=
  if b =? 0 then None else Some (a mod b).

End Word64.
Import Word64.

(** What a call can do: return, run into undefined behaviour, or still be
    looping when the fuel given to its loop is spent. *)
Inductive outcome (A : Type) : Type :=
| Returns (a : A)
| Undefined
| OutOfFuel.
Arguments Returns {A} a.
Arguments Undefined {A}.
Arguments OutOfFuel {A}.

(** ** namespace detail *)

(** [rotl(x, k)]; every call site passes a constant [k] with [0 < k < 64]. *)
Definition rotl (x k : Z) : Z := Z.lor (shl64 x k) (shr64 x (64 - k)).

(** [splitmix64(uint64_t *state)]: the pair of the returned word and the word
    left in [*state]. *)
Definition splitmix64 (state : Z) : Z * Z :=
  let state' := add64 state 0x9e3779b97f4a7c15 in
  let z := state' in
  let z := mul64 (Z.lxor z (shr64 z 30)) 0xbf58476d1ce4e5b9 in
  let z := mul64 (Z.lxor z (shr64 z 27)) 0x94d049bb133111eb in
  (Z.lxor z (shr64 z 31), state').

(** *** class Xoshiro256StarStarEngine *)

Inductive index : Type := I0 | I1 | I2 | I3.

Record state_type : Type := mkState { w0 : Z; w1 : Z; w2 : Z; w3 : Z }.

Definition word_at (s : state_type) (i : index) : Z :=
  match i with I0 => w0 s | I1 => w1 s | I2 => w2 s | I3 => w3 s end.

Definition set_word (s : state_type) (i : index) (v : Z) : state_type :=
  match i with
  | I0 => mkState v (w1 s) (w2 s) (w3 s)
  | I1 => mkState (w0 s) v (w2 s) (w3 s)
  | I2 => mkState (w0 s) (w1 s) v (w3 s)
  | I3 => mkState (w0 s) (w1 s) (w2 s) v
  end.

Record Engine : Type := mkEngine { state_ : state_type }.

Definition default_seed : Z := 18914.

Definition state (e : Engine) : state_type := state_ e.
Definition set_state (e : Engine) (st : state_type) : Engine := mkEngine st.

(** [operator==]. *)
Definition state_eqb (a b : state_type) : bool :=
  (w0 a =? w0 b) && (w1 a =? w1 b) && (w2 a =? w2 b) && (w3 a =? w3 b).
Definition engine_eqb (left right : Engine) : bool :=
  state_eqb (state_ left) (state_ right).

(** The state the generator must not be in. *)
Definition zero_state : state_type := mkState 0 0 0 0.
Definition nonzero (e : Engine) : Prop := state_ e <> zero_state.

(** [next()]: the returned word and the engine after the call. *)
Definition next (e : Engine) : Z * Engine :=
  let st := state_ e in
  let result_starstar := mul64 (rotl (mul64 (word_at st I1) 5) 7) 9 in
  let t := shl64 (word_at st I1) 17 in
  let st := set_word st I2 (Z.lxor (word_at st I2) (word_at st I0)) in
  let st := set_word st I3 (Z.lxor (word_at st I3) (word_at st I1)) in
  let st := set_word st I1 (Z.lxor (word_at st I1) (word_at st I2)) in
  let st := set_word st I0 (Z.lxor (word_at st I0) (word_at st I3)) in
  let st := set_word st I2 (Z.lxor (word_at st I2) t) in
  let st := set_word st I3 (rotl (word_at st I3) 45) in
  (result_starstar, mkEngine st).

(** The state change of one [next()] call. *)
Definition step (e : Engine) : Engine := snd (next e).

(** [discard(z)]: the loop [for(; z != 0; --z) next();], on the number of
    rounds left. *)
Fixpoint discard_loop (z : nat) (e : Engine) : Engine :=
  match z with
  | O => e
  | S z' => discard_loop z' (snd (next e))
  end.

Definition discard (e : Engine) (z : Z) : Engine := discard_loop (Z.to_nat z) e.

(** The constants both [seed] overloads start from. *)
Definition well_mixed : state_type :=
  mkState 0x5FAF84EE2AA04CFF 0xB3A2EF3524D89987 0x5A82B68EF098F79D 0x5D7AA03298486D6E.

(** [for(auto &&a : state_) a += splitmix64(&s);]: the seed word [s] is
    advanced by each of the four calls. *)
Definition add_random_bits (s : Z) (st : state_type) : Z * state_type :=
  fold_left
    (fun (acc : Z * state_type) (a : index) =>
       let '(s, st) := acc in
       let '(r, s') := splitmix64 s in
       (s', set_word st a (add64 (word_at st a) r)))
    [I0; I1; I2; I3] (s, st).

(** The all-zero check of both [seed] overloads. *)
Definition fix_all_zeros (st : state_type) : state_type :=
  if (word_at st I0 =? 0) && (word_at st I1 =? 0) && (word_at st I2 =? 0) && (word_at st I3 =? 0)
  then set_word st I1 0x1615CA18E55EE70C
  else st.

(** [seed(result_type s)]. *)
Definition seed (e : Engine) (s : Z) : Engine :=
  let st := well_mixed in
  let st := snd (add_random_bits s st) in
  let st := fix_all_zeros st in
  discard (mkEngine st) 256.

(** [seed(Sseq &ss)]: each [s] of the sequence is a fresh copy. *)
Definition seed_seq (e : Engine) (ss : list Z) : Engine :=
  let st := well_mixed in
  let st := fold_left (fun st s => snd (add_random_bits s st)) ss st in
  let st := fix_all_zeros st in
  discard (mkEngine st) 256.

(** The two constructors. *)
Definition make_engine (seed_value : Z) : Engine := seed (mkEngine well_mixed) seed_value.
Definition make_engine_seq (ss : list Z) : Engine := seed_seq (mkEngine well_mixed) ss.

(** ** Sampling functions of namespace detail *)

Definition wrap32 (x : Z) : Z := x mod 2 ^ 32.
Definition wrap128 (x : Z) : Z := x mod 2 ^ 128.

Definition random_u32 (u : Z) : Z := wrap32 (shr64 u 32).

Definition random_u32_pair (u : Z) : Z * Z := (wrap32 u, wrap32 (shr64 u 32)).

Section Callback.

(** The [callback &get] of [random_u64_limited]: an object with some state
    [G] whose call returns a word and leaves a new state. *)
Context {G : Type}.
Variable get : G -> Z * G.

(** The [while(l < t)] loop; [m] is the current 128-bit product, and [fuel]
    bounds the number of words the loop may still draw. *)
Fixpoint redraw (fuel : nat) (max_value t m : Z) (g : G) : outcome (Z * G) :=
  let l := wrap64 m in
  if l <? t then
    match fuel with
    | O => OutOfFuel
    | S fuel' =>
        let '(x, g') := get g in
        let m' := wrap128 (x * max_value) in
        redraw fuel' max_value t m' g'
    end
  else Returns (wrap64 (Z.shiftr m 64), g).

Definition random_u64_limited (fuel : nat) (max_value : Z) (g : G) : outcome (Z * G) :=
  let '(x, g) := get g in
  let m := wrap128 (x * max_value) in
  let l := wrap64 m in
  if l <? max_value then
    match umod64 (neg64 max_value) max_value with
    | None => Undefined
    | Some t => redraw fuel max_value t m g
    end
  else Returns (wrap64 (Z.shiftr m 64), g).

(** The raw words of successive calls: the state after [k] calls and the
    word the next call returns. *)
Fixpoint after (k : nat) (g : G) : G :=
  match k with
  | O => g
  | S k' => after k' (snd (get g))
  end.

Definition draw (k : nat) (g : G) : Z := fst (get (after k g)).

End Callback.

(** The threshold [-max_value % max_value] and the test a raw word has to pass
    to leave the loop of [random_u64_limited]. *)
Definition threshold (max_value : Z) : Z := neg64 max_value mod max_value.

Definition accepted (max_value x : Z) : bool :=
  threshold max_value <=? wrap64 (x * max_value).

(** ** IEEE 754 binary64, the [double] of the platform

    The arithmetic is the one of [SpecFloat] at precision 53 and maximal
    exponent 1024, rounding to nearest even. *)

Module Double.

Definition prec : Z := 53.
Definition emax : Z := 1024.

Definition double : Type := spec_float.

Definition sub (x y : double) : double := SFsub prec emax x y.
Definition div (x y : double) : double := SFdiv prec emax x y.
Definition ltb (x y : double) : bool := SFltb x y.
Definition leb (x y : double) : bool := SFleb x y.

(** The object representation [std::memcpy] reads a [double] from: sign in
    bit 63, biased exponent in bits 62..52, fraction in bits 51..0. *)
Definition of_bits (u : Z) : double :=
  let sign := Z.testbit u 63 in
  let biased := (u / 2 ^ 52) mod 2 ^ 11 in
  let fraction := u mod 2 ^ 52 in
  if biased =? 0 then
    match fraction with
    | Zpos p => S754_finite sign p (-1074)
    | _ => S754_zero sign
    end
  else if biased =? 2047 then
    if fraction =? 0 then S754_infinity sign else S754_nan
  else
    match fraction + 2 ^ 52 with
    | Zpos p => S754_finite sign p (biased - 1075)
    | _ => S754_nan
    end.

(** [static_cast<int64_t>] of a [uint64_t], and the conversion of an
    [int64_t] operand to [double]. *)
Definition to_int64 (x : Z) : Z := if x <? 2 ^ 63 then x else x - 2 ^ 64.
Definition of_int64 (n : Z) : double := binary_normalize prec emax n 0 false.

(** The literals of the source, as the compiler reads them. *)
#[warnings="-inexact-float"]
Definition lit_0_99999999999999988 : double :=
  Eval vm_compute in Prim2SF 0.99999999999999988%float.
Definition lit_9007199254740992 : double :=
  Eval vm_compute in Prim2SF 9007199254740992.0%float.
Definition zero : double := Eval vm_compute in Prim2SF 0.0%float.
Definition one : double := Eval vm_compute in Prim2SF 1.0%float.

(** The rational a finite [double] stands for. *)
Definition value (x : double) : option Q :=
  match x with
  | S754_zero _ => Some 0%Q
  | S754_finite s m e =>
      Some (inject_Z (if s then Zneg m else Zpos m) * inject_Z 2 ^ e)%Q
  | _ => None
  end.

End Double.

Definition random_f52 (u : Z) : Double.double :=
  let u := Z.lor (shr64 u 12) 0x3FF0000000000000 in
  let d := Double.of_bits u in
  Double.sub d Double.lit_0_99999999999999988.

Definition random_f53 (u : Z) : Double.double :=
  let n := Double.to_int64 (shr64 u 11) in
  Double.div (Double.of_int64 n) Double.lit_9007199254740992.

(** ** class Random *)

Module Random.

Definition bits (e : Engine) : Z * Engine := next e.

(** [bits(int b)]: the shift count [64 - b] is a run-time value. *)
Definition bits_b (e : Engine) (b : Z) : outcome (Z * Engine) :=
  let '(raw, e') := bits e in
  match shr64_checked raw (64 - b) with
  | Some v => Returns (v, e')
  | None => Undefined
  end.

Definition u64 (e : Engine) : Z * Engine := bits e.

Definition u64_limited (fuel : nat) (e : Engine) (max_value : Z) : outcome (Z * Engine) :=
  random_u64_limited next fuel max_value e.

Definition u32 (e : Engine) : Z * Engine :=
  let '(raw, e') := bits e in (random_u32 raw, e').

Definition u32_pair (e : Engine) : (Z * Z) * Engine :=
  let '(raw, e') := bits e in (random_u32_pair raw, e').

Definition f52 (e : Engine) : Double.double * Engine :=
  let '(raw, e') := bits e in (random_f52 raw, e').

Definition f53 (e : Engine) : Double.double * Engine :=
  let '(raw, e') := bits e in (random_f53 raw, e').

End Random.

(** [create_uint64_seed(ss)]. *)
Definition create_uint64_seed (ss : list Z) : Z :=
  fold_left (fun seed s => add64 seed (fst (splitmix64 s))) ss 0xFD57D105591C980C.

(** The words of [n] successive [next()] calls, oldest first. *)
Fixpoint outputs (n : nat) (e : Engine) : list Z :=
  match n with
  | O => []
  | S n' => let '(r, e') := next e in r :: outputs n' e'
  end.

(** ** Further definitions: word states, comparison, seed material *)

(** The states the C++ type allows: four words of 64 bits. *)
Definition wf_state (st : state_type) : Prop :=
  word64 (w0 st) /\ word64 (w1 st) /\ word64 (w2 st) /\ word64 (w3 st).

Definition wf (e : Engine) : Prop := wf_state (state_ e).

(** [operator!=], [min()] and [max()]. *)
Definition engine_neqb (left right : Engine) : bool := negb (engine_eqb left right).
Definition engine_min : Z := 0.
Definition engine_max : Z := 2 ^ 64 - 1.

(** The word [splitmix64] returns for the state it leaves. *)
Definition splitmix64_finish (z : Z) : Z :=
  let z := mul64 (Z.lxor z (shr64 z 30)) 0xbf58476d1ce4e5b9 in
  let z := mul64 (Z.lxor z (shr64 z 27)) 0x94d049bb133111eb in
  Z.lxor z (shr64 z 31).

(** What the [k]-th [splitmix64] call of one round returns when the round
    starts from the seed word [s]: the mixer's output at [s + k * g]. *)
Definition mixed (k : Z) (s : Z) : Z :=
  splitmix64_finish (wrap64 (s + k * 0x9e3779b97f4a7c15)).

(** The body of the loop of [seed(Sseq &ss)] over the elements. *)
Definition mix_round (st : state_type) (s : Z) : state_type := snd (add_random_bits s st).

(** [create_seed_seq()], on what it reads from its environment: the clock,
    the process id and, when the [#if __cpluscplus >= 201103L] branches are
    the ones compiled ([cxx11]), two words of [std::random_device]. *)
Definition create_seed_seq (cxx11 : bool) (clock pid rd1 rd2 : Z) : list Z :=
  let ret := [] in
  let ret := ret ++ [0xC8F978DB0B32F62E] in
  let ret := ret ++ [wrap64 clock] in
  let ret := ret ++ [wrap64 pid] in
  if cxx11 then
    let u := wrap32 rd1 in
    let u := add64 (shl64 u 32) (wrap32 rd2) in
    ret ++ [u]
  else ret.

(** * Properties *)

(** ** Words *)

Lemma wrap64_word (x : Z) : word64 (wrap64 x).
Proof. unfold word64, wrap64, modulus. apply Z.mod_pos_bound. lia. Qed.

Lemma wrap64_small (x : Z) : word64 x -> wrap64 x = x.
Proof. unfold word64, wrap64. intros H. now apply Z.mod_small. Qed.

(** [rotl] moves bit [i - k] (modulo 64) of a word to bit [i]. *)
Lemma rotl_testbit (x k i : Z) :
  word64 x -> 0 < k < 64 -> 0 <= i < 64 ->
  Z.testbit (rotl x k) i = Z.testbit x ((i - k) mod 64).
Proof.
  intros Hx Hk Hi. unfold rotl, shl64, shr64, wrap64, modulus.
  rewrite Z.lor_spec, Z.mod_pow2_bits_low by lia.
  rewrite Z.shiftr_spec by lia.
  destruct (Z_lt_le_dec i k) as [Hlt | Hge].
  - rewrite Z.shiftl_spec_low by lia. cbn [orb].
    replace ((i - k) mod 64) with (i + (64 - k)); [reflexivity|].
    apply Z.mod_unique with (q := -1); lia.
  - rewrite Z.shiftl_spec by lia.
    replace (Z.testbit x (i + (64 - k))) with false.
    + rewrite orb_false_r. f_equal. symmetry. apply Z.mod_small. lia.
    + symmetry. destruct Hx as [Hx0 Hx1].
      destruct (Z.eq_dec x 0) as [-> | Hnz]; [apply Z.bits_0|].
      apply Z.bits_above_log2; [lia|].
      apply Z.lt_le_trans with 64; [|lia].
      apply Z.log2_lt_pow2; [lia | exact Hx1].
Qed.

(** ** The transition function *)

Lemma discard_loop_step (n : nat) (e : Engine) :
  discard_loop n (step e) = step (discard_loop n e).
Proof.
  revert e. induction n as [| n IH]; intros e; [reflexivity|].
  cbn [discard_loop]. fold (step e). fold (step (step e)).
  rewrite IH. reflexivity.
Qed.

Lemma discard_loop_iter (n : nat) (e : Engine) :
  discard_loop n e = Nat.iter n step e.
Proof.
  induction n as [| n IH]; [reflexivity|].
  cbn [discard_loop Nat.iter nat_rect]. fold (step e).
  rewrite discard_loop_step. f_equal. exact IH.
Qed.

Lemma outputs_length (n : nat) (e : Engine) : length (outputs n e) = n.
Proof.
  revert e. induction n as [| n IH]; intros e; [reflexivity|].
  cbn [outputs]. destruct (next e) as [r e'] eqn:E. cbn. now rewrite IH.
Qed.

Lemma outputs_last (n : nat) (e : Engine) :
  last (outputs (S n) e) 0 = fst (next (discard_loop n e)).
Proof.
  revert e. induction n as [| n IH]; intros e.
  - cbn [outputs discard_loop]. destruct (next e) as [r e']. reflexivity.
  - change (outputs (S (S n)) e) with
      (let '(r, e') := next e in r :: outputs (S n) e').
    cbn [discard_loop]. destruct (next e) as [r e'] eqn:E. cbn [snd].
    rewrite <- IH.
    destruct (outputs (S n) e') as [| a l] eqn:El.
    + pose proof (outputs_length (S n) e') as Hl. rewrite El in Hl. discriminate.
    + reflexivity.
Qed.

(** C1. One call of [next()] returns [rotl(s1 * 5, 7) * 9] of the state it
    starts from, all arithmetic being modulo 2^64 and [rotl] rotating the 64
    bits of a word to the left, and leaves the state obtained by running, in
    this order, [t = s1 << 17; s2 ^= s0; s3 ^= s1; s1 ^= s2; s0 ^= s3;
    s2 ^= t; s3 = rotl(s3, 45)], each step reading the words as the earlier
    steps left them. *)
Theorem next_transition (s0 s1 s2 s3 : Z) :
  let e := mkEngine (mkState s0 s1 s2 s3) in
  fst (next e) = ((rotl ((s1 * 5) mod 2 ^ 64) 7) * 9) mod 2 ^ 64
  /\ snd (next e) =
       (let t := (Z.shiftl s1 17) mod 2 ^ 64 in
        let s2 := Z.lxor s2 s0 in
        let s3 := Z.lxor s3 s1 in
        let s1 := Z.lxor s1 s2 in
        let s0 := Z.lxor s0 s3 in
        let s2 := Z.lxor s2 t in
        let s3 := rotl s3 45 in
        mkEngine (mkState s0 s1 s2 s3))
  /\ snd (next e) =
       mkEngine (mkState (Z.lxor s0 (Z.lxor s3 s1))
                         (Z.lxor s1 (Z.lxor s2 s0))
                         (Z.lxor (Z.lxor s2 s0) ((Z.shiftl s1 17) mod 2 ^ 64))
                         (rotl (Z.lxor s3 s1) 45))
  /\ (forall x i : Z,
         Z.testbit (rotl (x mod 2 ^ 64) 7) (i mod 64)
         = Z.testbit (x mod 2 ^ 64) ((i mod 64 - 7) mod 64))
  /\ (forall x i : Z,
         Z.testbit (rotl (x mod 2 ^ 64) 45) (i mod 64)
         = Z.testbit (x mod 2 ^ 64) ((i mod 64 - 45) mod 64)).
Proof.
  cbv zeta. split; [reflexivity|]. split; [reflexivity|]. split; [reflexivity|].
  split; intros x i; (apply rotl_testbit;
    [apply wrap64_word | lia | apply Z.mod_pos_bound; lia]).
Qed.

(** C5. [discard(n)] applies [next()] exactly [n] times and drops the words;
    so [discard(100)] followed by [next()] returns the last of the words of
    101 calls of [next()]. *)
Theorem discard_equivalence (e : Engine) :
  (forall n : nat,
      discard e (Z.of_nat n) = Nat.iter n (fun e' => snd (next e')) e
      /\ fst (next (discard e (Z.of_nat n))) = last (outputs (S n) e) 0)
  /\ fst (next (discard e 100)) = last (outputs 101 e) 0.
Proof.
  assert (H : forall n : nat,
             discard e (Z.of_nat n) = Nat.iter n (fun e' => snd (next e')) e
             /\ fst (next (discard e (Z.of_nat n))) = last (outputs (S n) e) 0).
  { intros n. unfold discard. rewrite Nat2Z.id. split.
    - apply discard_loop_iter.
    - symmetry. apply outputs_last. }
  split; [exact H|]. exact (proj2 (H 100%nat)).
Qed.

(** C7. Writing back the state just read, [set_state(state())], gives the
    same engine, hence the same words from every later [next()]. *)
Theorem set_state_state_identity (e : Engine) :
  set_state e (state e) = e
  /\ forall n : nat, outputs n (set_state e (state e)) = outputs n e.
Proof.
  assert (H : set_state e (state e) = e) by (destruct e; reflexivity).
  split; [exact H|]. intros n. now rewrite H.
Qed.

(** ** Seeding *)

(** C2. [seed(v)] starts from the four fixed constants, adds to the four
    words in order the mixer's outputs for [v + g], [v + 2g], [v + 3g] and
    [v + 4g] ([g] the increment the mixer adds to the word it is given; its
    output is two rounds of xor-shift and multiplication by an odd constant
    and a last xor-shift), puts [0x1615CA18E55EE70C] in the second word when
    all four are zero, and then runs the transition 256 times. *)
Theorem seed_value_spec (e : Engine) (v : Z) :
  let g := 0x9e3779b97f4a7c15 in
  let finish := fun z =>
    let z := ((Z.lxor z (Z.shiftr z 30)) * 0xbf58476d1ce4e5b9) mod 2 ^ 64 in
    let z := ((Z.lxor z (Z.shiftr z 27)) * 0x94d049bb133111eb) mod 2 ^ 64 in
    Z.lxor z (Z.shiftr z 31) in
  let v1 := add64 v g in
  let v2 := add64 v1 g in
  let v3 := add64 v2 g in
  let v4 := add64 v3 g in
  let filled :=
    mkState (add64 0x5FAF84EE2AA04CFF (finish v1)) (add64 0xB3A2EF3524D89987 (finish v2))
            (add64 0x5A82B68EF098F79D (finish v3)) (add64 0x5D7AA03298486D6E (finish v4)) in
  let checked :=
    if state_eqb filled zero_state
    then mkState (w0 filled) 0x1615CA18E55EE70C (w2 filled) (w3 filled)
    else filled in
  (forall s : Z, splitmix64 s = (finish (add64 s g), add64 s g))
  /\ Z.odd g = true /\ Z.odd 0xbf58476d1ce4e5b9 = true /\ Z.odd 0x94d049bb133111eb = true
  /\ add_random_bits v well_mixed = (v4, filled)
  /\ seed e v = Nat.iter 256 (fun e' => snd (next e')) (mkEngine checked).
Proof.
  intros g finish v1 v2 v3 v4 filled checked.
  assert (Hfill : add_random_bits v well_mixed = (v4, filled)) by reflexivity.
  split; [reflexivity|].
  split; [reflexivity|]. split; [reflexivity|]. split; [reflexivity|].
  split; [exact Hfill|].
  unfold seed, discard. rewrite discard_loop_iter, Hfill.
  change (Z.to_nat 256) with 256%nat. cbn [snd].
  unfold step. f_equal.
Qed.

(** ** The all-zero state *)

Lemma rotl_45_zero (x : Z) : rotl x 45 = 0 -> x = 0.
Proof.
  unfold rotl, shl64, shr64, wrap64, modulus. intros H.
  apply Z.lor_eq_0_iff in H. destruct H as [Hl Hr].
  change (64 - 45) with 19 in Hr.
  rewrite Z.shiftr_div_pow2 in Hr by lia.
  apply Z.div_small_iff in Hr; [|lia].
  destruct Hr as [Hr | Hr]; [|lia].
  rewrite Z.shiftl_mul_pow2 in Hl by lia.
  rewrite Z.mod_small in Hl by lia. lia.
Qed.

Lemma shl_17_fixed_point (x : Z) : x = shl64 x 17 -> x = 0.
Proof.
  unfold shl64. intros H.
  assert (Hw : word64 x) by (rewrite H; apply wrap64_word).
  unfold wrap64, word64, modulus in *.
  rewrite Z.shiftl_mul_pow2 in H by lia.
  pose proof (Z.div_mod (x * 2 ^ 17) (2 ^ 64) ltac:(lia)) as Hdm.
  rewrite <- H in Hdm.
  assert (Hdiv : (2 ^ 64 | (2 ^ 17 - 1) * x)).
  { exists (x * 2 ^ 17 / 2 ^ 64). lia. }
  apply Z.gauss in Hdiv; [|reflexivity].
  destruct Hdiv as [q Hq]. lia.
Qed.

Lemma lxor_eq_zero (a b : Z) : Z.lxor a b = 0 -> a = b.
Proof. apply Z.lxor_eq. Qed.

Lemma next_zero_state_inv (e : Engine) :
  state_ (step e) = zero_state -> state_ e = zero_state.
Proof.
  destruct e as [[s0 s1 s2 s3]]. unfold step, next, zero_state. cbn.
  intros H. injection H as H0 H1 H2 H3.
  apply rotl_45_zero in H3. apply lxor_eq_zero in H3. subst s3.
  rewrite Z.lxor_nilpotent, Z.lxor_0_r in H0. subst s0.
  rewrite Z.lxor_0_r in H1, H2.
  apply lxor_eq_zero in H1. subst s2.
  apply lxor_eq_zero in H2. apply shl_17_fixed_point in H2. subst s1.
  reflexivity.
Qed.

Lemma step_nonzero (e : Engine) : nonzero e -> nonzero (step e).
Proof. unfold nonzero. intros H Hz. apply H. now apply next_zero_state_inv. Qed.

Lemma discard_loop_nonzero (n : nat) (e : Engine) :
  nonzero e -> nonzero (discard_loop n e).
Proof.
  revert e. induction n as [| n IH]; intros e H; [exact H|].
  cbn [discard_loop]. apply IH. now apply step_nonzero.
Qed.

Lemma fix_all_zeros_nonzero (st : state_type) : fix_all_zeros st <> zero_state.
Proof.
  unfold fix_all_zeros, zero_state.
  destruct st as [s0 s1 s2 s3]. cbn [word_at set_word w0 w1 w2 w3].
  destruct ((s0 =? 0) && (s1 =? 0) && (s2 =? 0) && (s3 =? 0)) eqn:E.
  - discriminate.
  - intros H. injection H as -> -> -> ->. discriminate E.
Qed.

Section CallbackInvariant.

Context {G : Type}.
Variable get : G -> Z * G.
Variable P : G -> Prop.
Hypothesis get_keeps : forall g, P g -> P (snd (get g)).

Lemma redraw_keeps (fuel : nat) (max_value t m : Z) (g : G) (v : Z) (g' : G) :
  P g -> redraw get fuel max_value t m g = Returns (v, g') -> P g'.
Proof.
  revert m g. induction fuel as [| fuel IH]; intros m g Hg; cbn [redraw].
  - destruct (wrap64 m <? t); [discriminate|].
    intros H. injection H as _ <-. exact Hg.
  - destruct (wrap64 m <? t).
    + pose proof (get_keeps g Hg) as Hk. destruct (get g) as [x g1].
      apply IH. exact Hk.
    + intros H. injection H as _ <-. exact Hg.
Qed.

Lemma random_u64_limited_keeps (fuel : nat) (max_value : Z) (g : G) (v : Z) (g' : G) :
  P g -> random_u64_limited get fuel max_value g = Returns (v, g') -> P g'.
Proof.
  intros Hg. unfold random_u64_limited.
  pose proof (get_keeps g Hg) as Hk. destruct (get g) as [x g1]. cbn [snd] in Hk.
  destruct (wrap64 (wrap128 (x * max_value)) <? max_value).
  - destruct (umod64 (neg64 max_value) max_value) as [t|]; [|discriminate].
    now apply redraw_keeps.
  - intros H. injection H as _ <-. exact Hk.
Qed.

End CallbackInvariant.

(** C4. After [seed()] has run, for one seed value or for a sequence of
    them, the engine is not in the all-zero state. *)
Theorem seed_nonzero (e : Engine) :
  (forall v : Z, nonzero (seed e v))
  /\ (forall ss : list Z, nonzero (seed_seq e ss)).
Proof.
  split; intros x; unfold seed, seed_seq, discard;
    apply discard_loop_nonzero; unfold nonzero; cbn [state_];
    apply fix_all_zeros_nonzero.
Qed.

(** C10. [next()] takes a state that is not all-zero to a state that is not
    all-zero (the all-zero state is a fixed point and nothing else reaches
    it), and so do [discard(n)] and every call of the sampling layer. *)
Theorem nonzero_preserved (e : Engine) :
  nonzero e ->
  nonzero (snd (next e))
  /\ snd (next (mkEngine zero_state)) = mkEngine zero_state
  /\ (forall z : Z, nonzero (discard e z))
  /\ nonzero (snd (Random.bits e))
  /\ nonzero (snd (Random.u64 e))
  /\ nonzero (snd (Random.u32 e))
  /\ nonzero (snd (Random.u32_pair e))
  /\ nonzero (snd (Random.f52 e))
  /\ nonzero (snd (Random.f53 e))
  /\ (forall b v e', Random.bits_b e b = Returns (v, e') -> nonzero e')
  /\ (forall fuel max_value v e',
         Random.u64_limited fuel e max_value = Returns (v, e') -> nonzero e').
Proof.
  intros H. pose proof (step_nonzero e H) as Hs. unfold step in Hs.
  split; [exact Hs|]. split; [reflexivity|].
  split; [intros z; now apply discard_loop_nonzero|].
  unfold Random.u64, Random.u32, Random.u32_pair, Random.f52, Random.f53,
    Random.bits_b, Random.bits.
  destruct (next e) as [raw e1]. cbn [snd] in *.
  repeat (split; [exact Hs|]).
  split.
  - intros b v e' Hb.
    destruct (shr64_checked raw (64 - b)); [|discriminate].
    injection Hb as _ <-. exact Hs.
  - intros fuel max_value v e'. unfold Random.u64_limited.
    apply (random_u64_limited_keeps next nonzero); [|exact H].
    intros g Hg. now apply step_nonzero.
Qed.

Lemma nonzero_preserved_witness :
  nonzero (snd (next (mkEngine (mkState 1 2 3 4)))).
Proof.
  apply (nonzero_preserved (mkEngine (mkState 1 2 3 4))).
  unfold nonzero, zero_state. cbn. discriminate.
Defined.

(** ** Bounded integers: [random_u64_limited] *)

Lemma threshold_eq (max_value : Z) :
  0 < max_value < 2 ^ 64 -> threshold max_value = (2 ^ 64 - max_value) mod max_value.
Proof.
  intros H. unfold threshold, neg64, wrap64, modulus. f_equal.
  symmetry. apply Z.mod_unique with (q := -1); lia.
Qed.

Lemma threshold_lt (max_value : Z) :
  0 < max_value -> 0 <= threshold max_value < max_value.
Proof. intros H. unfold threshold. apply Z.mod_pos_bound. exact H. Qed.

Lemma product_fits (x max_value : Z) :
  word64 x -> 0 < max_value < 2 ^ 64 -> wrap128 (x * max_value) = x * max_value.
Proof.
  unfold word64, modulus, wrap128. intros Hx Hm. apply Z.mod_small. nia.
Qed.

Lemma high_half_bound (x max_value : Z) :
  word64 x -> 0 < max_value < 2 ^ 64 -> 0 <= x * max_value / 2 ^ 64 < max_value.
Proof.
  unfold word64, modulus. intros Hx Hm. split.
  - apply Z.div_pos; nia.
  - apply Z.div_lt_upper_bound; nia.
Qed.

Lemma high_half (x max_value : Z) :
  word64 x -> 0 < max_value < 2 ^ 64 ->
  wrap64 (Z.shiftr (x * max_value) 64) = x * max_value / 2 ^ 64.
Proof.
  intros Hx Hm. rewrite Z.shiftr_div_pow2 by lia.
  apply wrap64_small. pose proof (high_half_bound x max_value Hx Hm).
  unfold word64, modulus. lia.
Qed.

Section Lemire.

Context {G : Type}.
Variable get : G -> Z * G.
Hypothesis get_word : forall g, word64 (fst (get g)).
Variable max_value : Z.
Hypothesis max_value_range : 0 < max_value < 2 ^ 64.

Lemma after_succ (k : nat) (g : G) : after get (S k) g = snd (get (after get k g)).
Proof.
  revert g. induction k as [| k IH]; intros g; [reflexivity|].
  change (after get (S (S k)) g) with (after get (S k) (snd (get g))).
  rewrite IH. reflexivity.
Qed.

Lemma get_after (k : nat) (g : G) :
  get (after get k g) = (draw get k g, after get (S k) g).
Proof. rewrite after_succ. unfold draw. now destruct (get (after get k g)). Qed.

Lemma draw_word (k : nat) (g : G) : word64 (draw get k g).
Proof. unfold draw. apply get_word. Qed.

(** The loop entered with the product of the word of call [j]: it leaves
    with the first accepted word, [k] calls later. *)
Lemma redraw_first_accepted (g : G) (k : nat) :
  forall (j fuel : nat),
    (forall i, (j <= i < j + k)%nat -> accepted max_value (draw get i g) = false) ->
    accepted max_value (draw get (j + k) g) = true ->
    (k <= fuel)%nat ->
    redraw get fuel max_value (threshold max_value)
           (wrap128 (draw get j g * max_value)) (after get (S j) g)
    = Returns (draw get (j + k) g * max_value / 2 ^ 64, after get (S (j + k)) g).
Proof.
  induction k as [| k IH]; intros j fuel Hrej Hacc Hfuel.
  - rewrite Nat.add_0_r in *.
    rewrite product_fits by (auto using draw_word).
    unfold accepted in Hacc. apply Z.leb_le in Hacc.
    destruct fuel; cbn [redraw];
      (destruct (Z.ltb_spec (wrap64 (draw get j g * max_value)) (threshold max_value));
       [lia|]); rewrite high_half by (auto using draw_word); reflexivity.
  - destruct fuel as [| fuel]; [lia|]. cbn [redraw].
    rewrite product_fits by (auto using draw_word).
    pose proof (Hrej j ltac:(lia)) as Hj. unfold accepted in Hj.
    apply Z.leb_gt in Hj.
    destruct (Z.ltb_spec (wrap64 (draw get j g * max_value)) (threshold max_value));
      [|lia].
    rewrite get_after.
    replace (j + S k)%nat with (S j + k)%nat in * by lia.
    apply IH; [|exact Hacc|lia].
    intros i Hi. apply Hrej. lia.
Qed.

Lemma random_u64_limited_first_accepted (g : G) (k fuel : nat) :
  (forall i, (i < k)%nat -> accepted max_value (draw get i g) = false) ->
  accepted max_value (draw get k g) = true ->
  (k <= fuel)%nat ->
  random_u64_limited get fuel max_value g
  = Returns (draw get k g * max_value / 2 ^ 64, after get (S k) g).
Proof.
  intros Hrej Hacc Hfuel. unfold random_u64_limited.
  pose proof (get_after 0 g) as Hg.
  change (after get 0 g) with g in Hg. rewrite Hg.
  rewrite product_fits by (auto using draw_word).
  destruct (Z.ltb_spec (wrap64 (draw get 0 g * max_value)) max_value) as [Hlt | Hge].
  - unfold umod64. destruct (Z.eqb_spec max_value 0); [lia|].
    fold (threshold max_value).
    rewrite <- (product_fits (draw get 0 g) max_value) by (auto using draw_word).
    apply (redraw_first_accepted g k 0 fuel); auto.
    intros i Hi. apply Hrej. lia.
  - destruct k as [| k].
    + rewrite high_half by (auto using draw_word). reflexivity.
    + pose proof (Hrej 0%nat ltac:(lia)) as H0. unfold accepted in H0.
      apply Z.leb_gt in H0. pose proof (threshold_lt max_value). lia.
Qed.

End Lemire.

(** C3, amended. For [0 < max_value], when the words the callback supplies
    are rejected up to call [k] and the word [x] of call [k] is accepted,
    [u64(max_value)] returns the high 64 bits of [x * max_value], a value
    below [max_value], having made [k + 1] calls; a word whose low half of
    the product is at least [max_value] is accepted, the others are accepted
    when it is at least [(2^64 - max_value) mod max_value]; and for
    [max_value = 1] the call returns 0 after one word, whatever it is. *)
Theorem u64_limited_bounded {G : Type} (get : G -> Z * G) (max_value : Z) (g : G)
    (k fuel : nat) :
  (forall g', word64 (fst (get g'))) ->
  0 < max_value < 2 ^ 64 ->
  (forall i, (i < k)%nat -> accepted max_value (draw get i g) = false) ->
  accepted max_value (draw get k g) = true ->
  (k <= fuel)%nat ->
  let x := draw get k g in
  random_u64_limited get fuel max_value g
    = Returns (x * max_value / 2 ^ 64, after get (S k) g)
  /\ 0 <= x * max_value / 2 ^ 64 < max_value
  /\ (forall y, accepted max_value y
                = ((2 ^ 64 - max_value) mod max_value <=? (y * max_value) mod 2 ^ 64))
  /\ (forall y, max_value <= (y * max_value) mod 2 ^ 64 -> accepted max_value y = true)
  /\ (forall fuel' g', random_u64_limited get fuel' 1 g' = Returns (0, snd (get g'))).
Proof.
  intros Hget Hmax Hrej Hacc Hfuel x.
  split; [now apply random_u64_limited_first_accepted|].
  split; [apply high_half_bound; [apply draw_word; exact Hget | exact Hmax]|].
  split; [intros y; unfold accepted; now rewrite threshold_eq|].
  split.
  - intros y Hy. unfold accepted. apply Z.leb_le.
    pose proof (threshold_lt max_value ltac:(lia)). unfold wrap64, modulus. lia.
  - intros fuel' g'.
    assert (H1 : 0 < 1 < 2 ^ 64) by lia.
    rewrite (random_u64_limited_first_accepted get Hget 1 H1 g' 0 fuel').
    + unfold draw. cbn [after].
      pose proof (Hget g') as Hw. unfold word64, modulus in Hw.
      rewrite Z.mul_1_r, Z.div_small by lia. reflexivity.
    + intros i Hi. lia.
    + unfold accepted. apply Z.leb_le.
      pose proof (threshold_lt 1 ltac:(lia)).
      pose proof (wrap64_word (draw get 0 g' * 1)) as Hw. unfold word64 in Hw. lia.
    + lia.
Qed.

Lemma next_word (e : Engine) : word64 (fst (next e)).
Proof. destruct e as [st]. cbn [next fst]. unfold mul64. apply wrap64_word. Qed.

Lemma u64_limited_bounded_witness :
  Random.u64_limited 1 (mkEngine (mkState 1 0 3 4)) 3
  = Returns (0, after next 2 (mkEngine (mkState 1 0 3 4))).
Proof.
  refine (proj1 (u64_limited_bounded next 3 (mkEngine (mkState 1 0 3 4)) 1 1
                   next_word _ _ _ _)).
  - lia.
  - intros i Hi. destruct i as [| i]; [reflexivity | lia].
  - reflexivity.
  - lia.
Defined.

(** C9. With [max_value = 0] the call draws one word and returns 0: the
    product and its low half are 0, the test [l < max_value] fails, and the
    remainder by [max_value] is not evaluated. *)
Theorem u64_limited_zero {G : Type} (get : G -> Z * G) (fuel : nat) (g : G) :
  random_u64_limited get fuel 0 g = Returns (0, snd (get g))
  /\ umod64 (neg64 0) 0 = None
  /\ forall e : Engine, Random.u64_limited fuel e 0 = Returns (0, snd (next e)).
Proof.
  assert (H : forall (G' : Type) (get' : G' -> Z * G') (g' : G'),
             random_u64_limited get' fuel 0 g' = Returns (0, snd (get' g'))).
  { intros G' get' g'. unfold random_u64_limited.
    destruct (get' g') as [x g1]. rewrite Z.mul_0_r. reflexivity. }
  split; [apply H|]. split; [reflexivity|]. intros e. apply H.
Qed.

(** In the all-zero state every word drawn is 0, which [max_value = 3]
    rejects: the loop of [u64(3)] is still running whatever fuel it gets. *)
Lemma u64_limited_zero_state_loops (fuel : nat) :
  Random.u64_limited fuel (mkEngine zero_state) 3 = OutOfFuel.
Proof.
  unfold Random.u64_limited, random_u64_limited.
  change (next (mkEngine zero_state)) with (0, mkEngine zero_state).
  change (umod64 (neg64 3) 3) with (Some 1).
  change (wrap64 (wrap128 (0 * 3)) <? 3) with true. cbv iota.
  change (wrap128 (0 * 3)) with 0.
  induction fuel as [| fuel IH]; [reflexivity|].
  cbn [redraw]. change (wrap64 0 <? 1) with true. cbv iota.
  change (next (mkEngine zero_state)) with (0, mkEngine zero_state).
  exact IH.
Qed.

(** C3 as stated fails for the engine put in the all-zero state by
    [set_state]: it stays there, every word it supplies is 0, [max_value = 3]
    rejects 0, and [u64(3)] returns no value however long it runs. *)
Lemma u64_limited_never_returns :
  0 < 3 < 2 ^ 64
  /\ set_state (mkEngine well_mixed) zero_state = mkEngine zero_state
  /\ (forall k : nat, after next k (mkEngine zero_state) = mkEngine zero_state)
  /\ (forall k : nat, draw next k (mkEngine zero_state) = 0)
  /\ accepted 3 0 = false
  /\ (forall fuel : nat,
         Random.u64_limited fuel (mkEngine zero_state) 3 = OutOfFuel).
Proof.
  assert (Ha : forall k : nat, after next k (mkEngine zero_state) = mkEngine zero_state).
  { induction k as [| k IH]; [reflexivity|].
    cbn [after]. change (snd (next (mkEngine zero_state))) with (mkEngine zero_state).
    exact IH. }
  split; [lia|]. split; [reflexivity|]. split; [exact Ha|]. split.
  - intros k. unfold draw. rewrite Ha. reflexivity.
  - split; [reflexivity | exact u64_limited_zero_state_loops].
Qed.

(** ** Top bits: [bits(b)] *)

Lemma shr_top_bits (raw b : Z) :
  word64 raw -> 0 <= b <= 64 -> 0 <= Z.shiftr raw (64 - b) < 2 ^ b.
Proof.
  unfold word64, modulus. intros Hr Hb.
  rewrite Z.shiftr_div_pow2 by lia.
  assert (Hp : 2 ^ 64 = 2 ^ (64 - b) * 2 ^ b).
  { rewrite <- Z.pow_add_r by lia. f_equal. lia. }
  assert (0 < 2 ^ (64 - b)) by (apply Z.pow_pos_nonneg; lia).
  split.
  - apply Z.div_pos; lia.
  - apply Z.div_lt_upper_bound; lia.
Qed.

(** C6, amended. For [1 <= b <= 64], [bits(b)] draws one word [raw] and
    returns [raw >> (64 - b)], a value below [2^b]; the shift count [64 - b]
    then lies in [0, 64), where the shift is defined. *)
Theorem bits_b_top_bits (e : Engine) (b : Z) :
  1 <= b <= 64 ->
  let raw := fst (next e) in
  Random.bits_b e b = Returns (Z.shiftr raw (64 - b), snd (next e))
  /\ 0 <= Z.shiftr raw (64 - b) < 2 ^ b
  /\ shift_defined (64 - b) = true.
Proof.
  intros Hb raw.
  assert (Hs : shift_defined (64 - b) = true).
  { unfold shift_defined. apply andb_true_intro. split; [apply Z.leb_le | apply Z.ltb_lt]; lia. }
  split; [|split; [|exact Hs]].
  - unfold Random.bits_b, Random.bits, shr64_checked, raw.
    destruct (next e) as [r e']. rewrite Hs. reflexivity.
  - apply shr_top_bits; [apply next_word | lia].
Qed.

Lemma bits_b_top_bits_witness :
  Random.bits_b (mkEngine (mkState 1 2 3 4)) 8
  = Returns (0, snd (next (mkEngine (mkState 1 2 3 4)))).
Proof.
  refine (proj1 (bits_b_top_bits (mkEngine (mkState 1 2 3 4)) 8 _)). lia.
Defined.

(** C6 as stated fails at [b = 0]: the shift count is 64, the width of the
    word, and the shift is not defined. *)
Lemma bits_b_zero_undefined :
  shift_defined (64 - 0) = false
  /\ Random.bits_b (mkEngine (mkState 1 2 3 4)) 0 = Undefined.
Proof. split; reflexivity. Qed.

(** ** Floating point: [random_f52] and [random_f53] *)

Lemma digits2_pos_bounds (p : positive) :
  2 ^ (Zpos (digits2_pos p) - 1) <= Zpos p < 2 ^ Zpos (digits2_pos p).
Proof.
  induction p as [p IH | p IH |]; cbn [digits2_pos].
  - rewrite Pos2Z.inj_succ.
    replace (Z.succ (Zpos (digits2_pos p)) - 1) with (Z.succ (Zpos (digits2_pos p) - 1)) by lia.
    rewrite !Z.pow_succ_r by lia. lia.
  - rewrite Pos2Z.inj_succ.
    replace (Z.succ (Zpos (digits2_pos p)) - 1) with (Z.succ (Zpos (digits2_pos p) - 1)) by lia.
    rewrite !Z.pow_succ_r by lia. lia.
  - cbn. lia.
Qed.

Lemma digits2_pos_le (p : positive) (n : Z) :
  Zpos p < 2 ^ n -> Zpos (digits2_pos p) <= n.
Proof.
  intros H. pose proof (digits2_pos_bounds p) as [Hlo _].
  destruct (Z_lt_le_dec n (Zpos (digits2_pos p))) as [Hlt | Hle]; [|exact Hle].
  exfalso.
  assert (0 <= n). { destruct (Z_lt_le_dec n 0); [|lia]. rewrite Z.pow_neg_r in H; lia. }
  assert (2 ^ n <= 2 ^ (Zpos (digits2_pos p) - 1)) by (apply Z.pow_le_mono_r; lia).
  lia.
Qed.

Lemma iter_xO_value (p k : positive) : Zpos (Pos.iter xO p k) = Zpos p * 2 ^ Zpos k.
Proof.
  induction k as [| k IH] using Pos.peano_ind.
  - cbn. lia.
  - rewrite Pos.iter_succ, Pos2Z.inj_succ, Z.pow_succ_r by lia. lia.
Qed.

Lemma iter_xO_digits (p k : positive) :
  digits2_pos (Pos.iter xO p k) = (digits2_pos p + k)%positive.
Proof.
  induction k as [| k IH] using Pos.peano_ind.
  - cbn. lia.
  - rewrite Pos.iter_succ. cbn [digits2_pos]. rewrite IH. lia.
Qed.


Lemma fexp_normal (x : Z) : -1021 <= x -> fexp 53 1024 x = x - 53.
Proof. intros H. unfold fexp, emin. lia. Qed.

Lemma binary_round_aux_canonical (s : bool) (m : positive) (e : Z) :
  digits2_pos m = 53%positive -> -1074 <= e <= 971 ->
  binary_round_aux 53 1024 s (Zpos m) e loc_Exact = S754_finite s m e.
Proof.
  intros Hd He.
  assert (Hf : fexp 53 1024 (53 + e) - e = 0) by (rewrite fexp_normal; lia).
  unfold binary_round_aux, shr_fexp.
  cbn [Zdigits2 shr_record_of_loc]. rewrite Hd, Hf.
  cbn [shr shr_m loc_of_shr_record round_nearest_even Zdigits2 shr_record_of_loc].
  rewrite Hd, Hf. cbn [shr shr_m].
  replace (e <=? 1024 - 53) with true; [reflexivity|].
  symmetry. apply Z.leb_le. lia.
Qed.

Lemma binary_round_exact (s : bool) (m : positive) (e : Z) :
  Zpos (digits2_pos m) <= 53 ->
  -1074 <= e + Zpos (digits2_pos m) - 53 <= 971 ->
  exists m' : positive,
    binary_round 53 1024 s m e = S754_finite s m' (e + Zpos (digits2_pos m) - 53)
    /\ Zpos m' = Zpos m * 2 ^ (53 - Zpos (digits2_pos m))
    /\ digits2_pos m' = 53%positive.
Proof.
  intros Hd He. unfold binary_round, shl_align.
  rewrite fexp_normal by lia.
  destruct (Z.pos (digits2_pos m) + e - 53 - e) as [| k | k] eqn:Ek.
  - assert (Hm : digits2_pos m = 53%positive) by lia.
    exists m. rewrite binary_round_aux_canonical by (auto; lia).
    rewrite Hm. split; [f_equal; lia|]. split; [cbn; lia | reflexivity].
  - lia.
  - exists (Pos.iter xO m k).
    assert (Hk : digits2_pos (Pos.iter xO m k) = 53%positive)
      by (rewrite iter_xO_digits; lia).
    rewrite binary_round_aux_canonical by (auto; lia).
    split; [f_equal; lia|]. split; [|exact Hk].
    rewrite iter_xO_value. f_equal. f_equal. lia.
Qed.

Lemma div_eucl_exact (a b q : Z) : 0 < b -> a = q * b -> Z.div_eucl a b = (q, 0).
Proof.
  intros Hb ->. pose proof (Z.div_mul q b ltac:(lia)) as Hq.
  pose proof (Z.mod_mul q b ltac:(lia)) as Hr.
  unfold Z.div, Z.modulo in Hq, Hr.
  destruct (Z.div_eucl (q * b) b) as [q' r']. cbn in Hq, Hr. now subst.
Qed.

(** Dividing a normal number by [2^53] only lowers its exponent. *)
Lemma div_by_2_53 (m : positive) (e : Z) :
  digits2_pos m = 53%positive -> -1000 <= e <= 971 ->
  SFdiv 53 1024 (S754_finite false m e) Double.lit_9007199254740992
  = S754_finite false m (e - 53).
Proof.
  intros Hd He. unfold Double.lit_9007199254740992, SFdiv, SFdiv_core_binary.
  cbn [Zdigits2]. rewrite Hd.
  change (Z.pos (digits2_pos 4503599627370496)) with 53.
  replace (53 + e - (53 + 1)) with (e - 1) by lia.
  rewrite fexp_normal by lia.
  replace (Z.min (e - 1 - 53) (e - 1)) with (e - 54) by lia.
  replace (e - 1 - (e - 54)) with 53 by lia.
  rewrite (div_eucl_exact _ _ (Zpos m~0)); [|lia|].
  2:{ rewrite Z.shiftl_mul_pow2 by lia. change 4503599627370496 with (2 ^ 52).
      change (2 ^ 53) with (2 * 2 ^ 52). lia. }
  change (new_location 4503599627370496 0) with loc_Exact.
  cbn [xorb].
  unfold binary_round_aux, shr_fexp.
  cbn [Zdigits2 digits2_pos shr_record_of_loc]. rewrite Hd.
  change (Z.pos (Pos.succ 53)) with 54.
  replace (fexp 53 1024 (54 + (e - 54)) - (e - 54)) with 1
    by (rewrite fexp_normal; lia).
  cbn [shr iter_pos shr_1 shr_m loc_of_shr_record orb round_nearest_even
       Zdigits2 shr_record_of_loc].
  rewrite Hd.
  replace (fexp 53 1024 (53 + (e - 54 + 1)) - (e - 54 + 1)) with 0
    by (rewrite fexp_normal; lia).
  cbn [shr shr_m].
  replace (e - 54 + 1 <=? 1024 - 53) with true by (symmetry; apply Z.leb_le; lia).
  f_equal. lia.
Qed.

Lemma value_scaled (m : positive) (n k e : Z) :
  Zpos m = n * 2 ^ k -> 0 <= k -> k + e = -53 ->
  (inject_Z (Zpos m) * inject_Z 2 ^ e == inject_Z n / inject_Z (2 ^ 53))%Q.
Proof.
  intros Hm Hk He. rewrite Hm, inject_Z_mult, Zpower_Qpower by exact Hk.
  rewrite <- Qmult_assoc, <- Qpower_plus by discriminate.
  rewrite He. reflexivity.
Qed.

Lemma shr_range (u k : Z) :
  word64 u -> 0 <= k <= 64 -> 0 <= Z.shiftr u k < 2 ^ (64 - k).
Proof.
  intros Hu Hk. pose proof (shr_top_bits u (64 - k) Hu ltac:(lia)) as H.
  replace (64 - (64 - k)) with k in H by lia. exact H.
Qed.

(** What [random_f53] computes: [n / 2^53] for [n] the top 53 bits. *)
Lemma random_f53_exact (u : Z) :
  word64 u ->
  (Z.shiftr u 11 = 0 /\ random_f53 u = S754_zero false)
  \/ (exists (m : positive) (d : Z),
         random_f53 u = S754_finite false m (d - 106)
         /\ 1 <= d <= 53
         /\ Zpos m = Z.shiftr u 11 * 2 ^ (53 - d)).
Proof.
  intros Hu. pose proof (shr_range u 11 Hu ltac:(lia)) as Hn.
  change (2 ^ (64 - 11)) with (2 ^ 53) in Hn.
  unfold random_f53, shr64, Double.to_int64, Double.of_int64, Double.div.
  destruct (Z.ltb_spec (Z.shiftr u 11) (2 ^ 63)) as [_ | Hbig]; [|lia].
  destruct (Z.shiftr u 11) as [| p | p] eqn:En; [left; split; reflexivity | | lia].
  right. cbn [binary_normalize].
  pose proof (digits2_pos_le p 53 ltac:(lia)) as Hd.
  assert (0 < Zpos (digits2_pos p)) by lia.
  destruct (binary_round_exact false p 0 Hd ltac:(lia)) as (m & Hr & Hm & Hdm).
  unfold Double.prec, Double.emax. rewrite Hr.
  rewrite div_by_2_53 by (auto; lia).
  exists m, (Zpos (digits2_pos p)). split; [f_equal; lia|]. split; [lia | exact Hm].
Qed.

Lemma lor_exponent (m : Z) :
  0 <= m < 2 ^ 52 -> Z.lor m 0x3FF0000000000000 = m + 1023 * 2 ^ 52.
Proof.
  intros Hm.
  assert (Hl : Z.land m (1023 * 2 ^ 52) = 0); [|now rewrite Z.add_nocarry_lxor, Z.lxor_lor].
  apply Z.bits_inj'. intros i Hi. rewrite Z.land_spec, Z.bits_0.
  destruct (Z_lt_le_dec i 52) as [Hlt | Hge].
  - change (1023 * 2 ^ 52) with (Z.shiftl 1023 52).
    rewrite (Z.shiftl_spec_low 1023 52 i Hlt). apply andb_false_r.
  - replace (Z.testbit m i) with false; [reflexivity|].
    symmetry. destruct (Z.eq_dec m 0) as [-> | Hnz]; [apply Z.bits_0|].
    apply Z.bits_above_log2; [lia|].
    apply Z.lt_le_trans with 52; [|exact Hge].
    apply Z.log2_lt_pow2; lia.
Qed.

Lemma of_bits_one_to_two (m : Z) :
  0 <= m < 2 ^ 52 ->
  exists p : positive,
    Double.of_bits (Z.lor m 0x3FF0000000000000) = S754_finite false p (-52)
    /\ Zpos p = m + 2 ^ 52.
Proof.
  intros Hm. rewrite lor_exponent by exact Hm. unfold Double.of_bits.
  assert (Hs : Z.testbit (m + 1023 * 2 ^ 52) 63 = false).
  { apply Z.testbit_false; [lia|]. rewrite Z.div_small; [reflexivity | lia]. }
  assert (Hb : (m + 1023 * 2 ^ 52) / 2 ^ 52 mod 2 ^ 11 = 1023).
  { rewrite Z.div_add, Z.div_small by lia. reflexivity. }
  assert (Hf : (m + 1023 * 2 ^ 52) mod 2 ^ 52 = m).
  { rewrite Z.mod_add, Z.mod_small by lia. reflexivity. }
  rewrite Hs, Hb, Hf. cbn [Z.eqb Pos.eqb].
  destruct (m + 2 ^ 52) as [| p | p] eqn:Ep; [lia | | lia].
  exists p. split; reflexivity.
Qed.

Lemma sub_just_below_one (p : positive) :
  SFsub 53 1024 (S754_finite false p (-52)) Double.lit_0_99999999999999988
  = binary_normalize 53 1024 (Zpos p~0 - 9007199254740991) (-53) false.
Proof. reflexivity. Qed.

(** What [random_f52] computes: [(2 m + 1) / 2^53] for [m] the top 52 bits. *)
Lemma random_f52_exact (u : Z) :
  word64 u ->
  exists (m : positive) (d : Z),
    random_f52 u = S754_finite false m (d - 106)
    /\ 1 <= d <= 53
    /\ Zpos m = (2 * Z.shiftr u 12 + 1) * 2 ^ (53 - d).
Proof.
  intros Hu. pose proof (shr_range u 12 Hu ltac:(lia)) as Hn.
  change (2 ^ (64 - 12)) with (2 ^ 52) in Hn.
  unfold random_f52, shr64, Double.sub.
  destruct (of_bits_one_to_two (Z.shiftr u 12) Hn) as (p & Hp & Hpv).
  rewrite Hp. unfold Double.prec, Double.emax. rewrite sub_just_below_one.
  assert (Hz : Zpos p~0 - 9007199254740991 = 2 * Z.shiftr u 12 + 1) by lia.
  rewrite Hz.
  destruct (2 * Z.shiftr u 12 + 1) as [| r | r] eqn:Er; [lia | | lia].
  cbn [binary_normalize].
  pose proof (digits2_pos_le r 53 ltac:(lia)) as Hd.
  assert (0 < Zpos (digits2_pos r)) by lia.
  destruct (binary_round_exact false r (-53) Hd ltac:(lia)) as (m & Hr & Hm & Hdm).
  rewrite Hr. exists m, (Zpos (digits2_pos r)).
  split; [f_equal; lia|]. split; [lia | exact Hm].
Qed.

Lemma small_positive_ranges (m : positive) (d : Z) :
  1 <= d <= 53 ->
  Double.ltb Double.zero (S754_finite false m (d - 106)) = true
  /\ Double.leb Double.zero (S754_finite false m (d - 106)) = true
  /\ Double.ltb (S754_finite false m (d - 106)) Double.one = true.
Proof.
  intros Hd. split; [reflexivity|]. split; [reflexivity|].
  unfold Double.ltb, Double.one, SFltb, SFcompare.
  replace (d - 106 ?= -52) with Lt; [reflexivity|].
  symmetry. apply Z.compare_lt_iff. lia.
Qed.

(** C8. For every raw word, [f52()] is above 0.0 and below 1.0, and [f53()]
    is at least 0.0 and below 1.0; [f53()] is exactly the top 53 bits of the
    word, as an integer, over [2^53] (and [f52()] is exactly twice the top 52
    bits plus one, over [2^53]). *)
Theorem float_ranges (u : Z) :
  word64 u ->
  Double.ltb Double.zero (random_f52 u) = true
  /\ Double.ltb (random_f52 u) Double.one = true
  /\ Double.leb Double.zero (random_f53 u) = true
  /\ Double.ltb (random_f53 u) Double.one = true
  /\ (exists q : Q,
         Double.value (random_f53 u) = Some q
         /\ (q == inject_Z (Z.shiftr u 11) / inject_Z (2 ^ 53))%Q)
  /\ (exists q : Q,
         Double.value (random_f52 u) = Some q
         /\ (q == inject_Z (2 * Z.shiftr u 12 + 1) / inject_Z (2 ^ 53))%Q).
Proof.
  intros Hu.
  destruct (random_f52_exact u Hu) as (m2 & d2 & E2 & Hd2 & Hm2).
  destruct (small_positive_ranges m2 d2 Hd2) as (A & _ & B).
  rewrite E2. split; [exact A|]. split; [exact B|].
  assert (V2 : exists q : Q,
             Double.value (S754_finite false m2 (d2 - 106)) = Some q
             /\ (q == inject_Z (2 * Z.shiftr u 12 + 1) / inject_Z (2 ^ 53))%Q).
  { eexists. split; [reflexivity|]. apply (value_scaled m2 _ (53 - d2)); [exact Hm2 | lia | lia]. }
  destruct (random_f53_exact u Hu) as [[Hz E3] | (m3 & d3 & E3 & Hd3 & Hm3)];
    rewrite E3.
  - split; [reflexivity|]. split; [reflexivity|]. split; [|exact V2].
    exists 0%Q. split; [reflexivity|]. rewrite Hz. reflexivity.
  - destruct (small_positive_ranges m3 d3 Hd3) as (_ & C & D).
    split; [exact C|]. split; [exact D|]. split; [|exact V2].
    eexists. split; [reflexivity|]. apply (value_scaled m3 _ (53 - d3)); [exact Hm3 | lia | lia].
Qed.

Lemma float_ranges_witness :
  Double.ltb Double.zero (random_f52 0x123456789ABCDEF0) = true.
Proof.
  refine (proj1 (float_ranges 0x123456789ABCDEF0 _)).
  unfold word64, modulus. lia.
Defined.

(** * Further properties of the engine and the sampling layer *)

(** ** Words, bit by bit *)

Lemma word64_high_bits (x i : Z) : word64 x -> 64 <= i -> Z.testbit x i = false.
Proof.
  unfold word64, modulus. intros Hx Hi.
  destruct (Z.eq_dec x 0) as [-> | Hnz]; [apply Z.bits_0|].
  apply Z.bits_above_log2; [lia|].
  apply Z.lt_le_trans with 64; [|exact Hi].
  apply Z.log2_lt_pow2; lia.
Qed.

Lemma word64_of_bits (x : Z) :
  0 <= x -> (forall i, 64 <= i -> Z.testbit x i = false) -> word64 x.
Proof.
  intros Hx Hb.
  assert (E : x = wrap64 x); [|rewrite E; apply wrap64_word].
  unfold wrap64, modulus. apply Z.bits_inj'. intros i Hi.
  destruct (Z_lt_le_dec i 64) as [Hlt | Hge].
  - now rewrite Z.mod_pow2_bits_low by lia.
  - rewrite Z.mod_pow2_bits_high by lia. now apply Hb.
Qed.

Lemma word64_eq_bits (x y : Z) :
  word64 x -> word64 y ->
  (forall i, 0 <= i < 64 -> Z.testbit x i = Z.testbit y i) -> x = y.
Proof.
  intros Hx Hy H. apply Z.bits_inj'. intros i Hi.
  destruct (Z_lt_le_dec i 64) as [Hlt | Hge]; [apply H; lia|].
  now rewrite !word64_high_bits by assumption.
Qed.

Lemma lxor_word (a b : Z) : word64 a -> word64 b -> word64 (Z.lxor a b).
Proof.
  intros Ha Hb. apply word64_of_bits.
  - apply Z.lxor_nonneg. unfold word64 in *. lia.
  - intros i Hi. now rewrite Z.lxor_spec, !word64_high_bits by assumption.
Qed.

Lemma shr_word (a k : Z) : word64 a -> 0 <= k -> word64 (shr64 a k).
Proof.
  intros Ha Hk. unfold shr64. apply word64_of_bits.
  - apply Z.shiftr_nonneg. unfold word64 in Ha. lia.
  - intros i Hi. rewrite Z.shiftr_spec by lia. apply word64_high_bits; [exact Ha | lia].
Qed.

Lemma rotl_word (x k : Z) : word64 x -> 0 <= k <= 64 -> word64 (rotl x k).
Proof.
  intros Hx Hk. unfold rotl. apply word64_of_bits.
  - apply Z.lor_nonneg. split.
    + apply wrap64_word.
    + apply (shr_word x (64 - k)); [exact Hx | lia].
  - intros i Hi. rewrite Z.lor_spec.
    rewrite (word64_high_bits (shl64 x k)) by (auto; apply wrap64_word).
    rewrite (word64_high_bits (shr64 x (64 - k))) by (auto; apply shr_word; auto; lia).
    reflexivity.
Qed.

Lemma rotl_inverse (x k : Z) :
  word64 x -> 0 < k < 64 -> rotl (rotl x k) (64 - k) = x.
Proof.
  intros Hx Hk.
  apply word64_eq_bits; [apply rotl_word; [apply rotl_word|]; auto; lia | exact Hx |].
  intros i Hi.
  rewrite rotl_testbit by (try apply rotl_word; auto; lia).
  rewrite rotl_testbit; [|exact Hx|lia|apply Z.mod_pos_bound; lia].
  f_equal.
  destruct (Z_lt_le_dec i (64 - k)) as [Hlt | Hge].
  - replace ((i - (64 - k)) mod 64) with (i + k)
      by (apply Z.mod_unique with (q := -1); lia).
    replace (i + k - k) with i by lia. apply Z.mod_small. lia.
  - rewrite (Z.mod_small (i - (64 - k))) by lia.
    symmetry. apply Z.mod_unique with (q := -1); lia.
Qed.

Lemma rotl_injective (x y k : Z) :
  word64 x -> word64 y -> 0 < k < 64 -> rotl x k = rotl y k -> x = y.
Proof.
  intros Hx Hy Hk H.
  rewrite <- (rotl_inverse x k), <- (rotl_inverse y k) by assumption.
  now rewrite H.
Qed.

(** [z ^ (z >> k)] determines [z]: the top [k] bits are kept and each lower
    bit is recovered from the one [k] places above. *)
Lemma xorshift_right_injective (z w k : Z) :
  word64 z -> word64 w -> 0 < k ->
  Z.lxor z (shr64 z k) = Z.lxor w (shr64 w k) -> z = w.
Proof.
  intros Hz Hw Hk H. unfold shr64 in H.
  assert (Hbits : forall (n : nat) (i : Z),
             64 - Z.of_nat n <= i -> 0 <= i -> Z.testbit z i = Z.testbit w i).
  { induction n as [| n IH]; intros i Hi Hi0.
    - now rewrite !word64_high_bits by (auto; lia).
    - pose proof (f_equal (fun v => Z.testbit v i) H) as Hb. cbn beta in Hb.
      rewrite !Z.lxor_spec, !Z.shiftr_spec in Hb by lia.
      rewrite (IH (i + k)) in Hb by lia.
      destruct (Z.testbit z i), (Z.testbit w i), (Z.testbit w (i + k));
        cbn in Hb; congruence. }
  apply word64_eq_bits; auto. intros i Hi. apply (Hbits 64%nat); lia.
Qed.

(** [z ^ (z << k)] determines [z] as well, from the low bits up. *)
Lemma xorshift_left_injective (z w k : Z) :
  word64 z -> word64 w -> 0 < k ->
  Z.lxor z (shl64 z k) = Z.lxor w (shl64 w k) -> z = w.
Proof.
  intros Hz Hw Hk H. unfold shl64, wrap64, modulus in H.
  assert (Hbits : forall (n : nat) (i : Z),
             0 <= i < Z.of_nat n -> i < 64 -> Z.testbit z i = Z.testbit w i).
  { induction n as [| n IH]; intros i Hi Hi64; [lia|].
    pose proof (f_equal (fun v => Z.testbit v i) H) as Hb. cbn beta in Hb.
    rewrite !Z.lxor_spec, !Z.mod_pow2_bits_low in Hb by lia.
    destruct (Z_lt_le_dec i k) as [Hlt | Hge].
    - rewrite !Z.shiftl_spec_low, !xorb_false_r in Hb by lia. exact Hb.
    - rewrite !Z.shiftl_spec in Hb by lia.
      rewrite (IH (i - k)) in Hb by lia.
      destruct (Z.testbit z i), (Z.testbit w i), (Z.testbit w (i - k));
        cbn in Hb; congruence. }
  apply word64_eq_bits; auto. intros i Hi. apply (Hbits 64%nat); lia.
Qed.

Lemma mul64_injective (a b c : Z) :
  Z.gcd (2 ^ 64) c = 1 -> word64 a -> word64 b -> mul64 a c = mul64 b c -> a = b.
Proof.
  unfold mul64, wrap64, word64, modulus. intros Hc Ha Hb H.
  assert (Hd : (2 ^ 64 | c * (a - b))).
  { exists (a * c / 2 ^ 64 - b * c / 2 ^ 64).
    pose proof (Z.div_mod (a * c) (2 ^ 64) ltac:(lia)).
    pose proof (Z.div_mod (b * c) (2 ^ 64) ltac:(lia)). lia. }
  apply Z.gauss in Hd; [|exact Hc]. destruct Hd as [q Hq]. lia.
Qed.

Lemma add64_injective (a b c : Z) :
  word64 a -> word64 b -> add64 a c = add64 b c -> a = b.
Proof.
  unfold add64, wrap64, word64, modulus. intros Ha Hb H.
  pose proof (Z.div_mod (a + c) (2 ^ 64) ltac:(lia)).
  pose proof (Z.div_mod (b + c) (2 ^ 64) ltac:(lia)).
  pose proof (Z.mod_pos_bound (a + c) (2 ^ 64) ltac:(lia)).
  assert ((a + c) / 2 ^ 64 - (b + c) / 2 ^ 64 = 0 \/ (a + c) / 2 ^ 64 - (b + c) / 2 ^ 64 <> 0) as [E | E] by lia; lia.
Qed.

(** ** States of 64-bit words *)

Lemma step_wf (e : Engine) : wf e -> wf (step e).
Proof.
  destruct e as [[s0 s1 s2 s3]]. unfold wf, wf_state, step. cbn.
  intros (H0 & H1 & H2 & H3).
  repeat split; try apply lxor_word; try apply rotl_word;
    try apply lxor_word; auto; try apply wrap64_word; lia.
Qed.

Lemma discard_loop_wf (n : nat) (e : Engine) : wf e -> wf (discard_loop n e).
Proof.
  revert e. induction n as [| n IH]; intros e H; [exact H|].
  cbn [discard_loop]. apply IH. now apply step_wf.
Qed.

Lemma lxor_cancel_l (a b c : Z) : Z.lxor a b = Z.lxor a c -> b = c.
Proof.
  intros H. apply (f_equal (Z.lxor a)) in H.
  now rewrite <- !Z.lxor_assoc, Z.lxor_nilpotent, !Z.lxor_0_l in H.
Qed.

Lemma lxor_cancel_mid (a x t : Z) : Z.lxor (Z.lxor a x) (Z.lxor x t) = Z.lxor a t.
Proof.
  apply Z.bits_inj'. intros i _. rewrite !Z.lxor_spec.
  destruct (Z.testbit a i), (Z.testbit x i), (Z.testbit t i); reflexivity.
Qed.

Lemma step_injective (e1 e2 : Engine) :
  wf e1 -> wf e2 -> step e1 = step e2 -> e1 = e2.
Proof.
  destruct e1 as [[a0 a1 a2 a3]], e2 as [[b0 b1 b2 b3]].
  unfold wf, wf_state, step. cbn.
  intros (A0 & A1 & A2 & A3) (B0 & B1 & B2 & B3) H.
  injection H as H0 H1 H2 H3.
  apply rotl_injective in H3; try apply lxor_word; auto; try lia.
  rewrite H3 in H0.
  assert (E0 : a0 = b0).
  { rewrite (Z.lxor_comm a0), (Z.lxor_comm b0) in H0. now apply lxor_cancel_l in H0. }
  subst b0.
  (* a1 ^ (a2 ^ a0) = b1 ^ (b2 ^ a0) and (a2 ^ a0) ^ t(a1) = (b2 ^ a0) ^ t(b1) *)
  assert (E1 : Z.lxor a1 (shl64 a1 17) = Z.lxor b1 (shl64 b1 17)).
  { apply (f_equal2 Z.lxor H1) in H2. now rewrite !lxor_cancel_mid in H2. }
  apply xorshift_left_injective in E1; auto; try lia. subst b1.
  apply lxor_cancel_l in H1.
  rewrite (Z.lxor_comm a2), (Z.lxor_comm b2) in H1. apply lxor_cancel_l in H1. subst b2.
  rewrite (Z.lxor_comm a3), (Z.lxor_comm b3) in H3. apply lxor_cancel_l in H3. subst b3.
  reflexivity.
Qed.

Lemma discard_loop_injective (n : nat) (e1 e2 : Engine) :
  wf e1 -> wf e2 -> discard_loop n e1 = discard_loop n e2 -> e1 = e2.
Proof.
  revert e1 e2. induction n as [| n IH]; intros e1 e2 H1 H2 H; [exact H|].
  cbn [discard_loop] in H. apply IH in H; try (now apply step_wf).
  now apply step_injective.
Qed.

Lemma starstar_injective (a b : Z) :
  word64 a -> word64 b ->
  mul64 (rotl (mul64 a 5) 7) 9 = mul64 (rotl (mul64 b 5) 7) 9 -> a = b.
Proof.
  intros Ha Hb H.
  apply mul64_injective in H;
    [| reflexivity | apply rotl_word; [apply wrap64_word | lia] ..].
  apply rotl_injective in H; [| apply wrap64_word .. | lia].
  apply mul64_injective in H; auto.
Qed.

(** X3. [next()] keeps every state word a 64-bit word and returns a word
    between [min()] and [max()]. *)
Theorem next_in_range (e : Engine) :
  wf e -> wf (snd (next e)) /\ engine_min <= fst (next e) <= engine_max.
Proof.
  intros H. split; [now apply step_wf|].
  pose proof (next_word e) as Hw. unfold word64, modulus in Hw.
  unfold engine_min, engine_max. lia.
Qed.

Lemma wf_1234 : wf (mkEngine (mkState 1 2 3 4)).
Proof. unfold wf, wf_state, word64, modulus. cbn. lia. Defined.

Lemma wf_4321 : wf (mkEngine (mkState 4 3 2 1)).
Proof. unfold wf, wf_state, word64, modulus. cbn. lia. Defined.

Lemma next_in_range_witness : wf (snd (next (mkEngine (mkState 1 2 3 4)))).
Proof. exact (proj1 (next_in_range _ wf_1234)). Defined.

(** X4. The transition loses nothing: two engines that are in the same state
    after [next()], or after [discard(z)], were in the same state before. *)
Theorem next_injective (e1 e2 : Engine) :
  wf e1 -> wf e2 ->
  (snd (next e1) = snd (next e2) -> e1 = e2)
  /\ (forall z : Z, discard e1 z = discard e2 z -> e1 = e2).
Proof.
  intros H1 H2. split.
  - now apply step_injective.
  - intros z. unfold discard. now apply discard_loop_injective.
Qed.

Lemma next_injective_witness :
  (snd (next (mkEngine (mkState 1 2 3 4))) = snd (next (mkEngine (mkState 4 3 2 1))) ->
   mkEngine (mkState 1 2 3 4) = mkEngine (mkState 4 3 2 1))
  /\ (forall z : Z,
         discard (mkEngine (mkState 1 2 3 4)) z = discard (mkEngine (mkState 4 3 2 1)) z ->
         mkEngine (mkState 1 2 3 4) = mkEngine (mkState 4 3 2 1)).
Proof. exact (next_injective _ _ wf_1234 wf_4321). Defined.

(** X5. The word [next()] returns is a one-to-one function of the second
    state word: two engines return the same word exactly when their second
    words agree, and the word is 0 exactly when the second word is 0. *)
Theorem next_output_one_to_one (e1 e2 : Engine) :
  wf e1 -> wf e2 ->
  (fst (next e1) = fst (next e2) <-> w1 (state_ e1) = w1 (state_ e2))
  /\ (fst (next e1) = 0 <-> w1 (state_ e1) = 0).
Proof.
  destruct e1 as [[a0 a1 a2 a3]], e2 as [[b0 b1 b2 b3]].
  unfold wf, wf_state. cbn. intros (_ & A1 & _) (_ & B1 & _).
  split; split.
  - now apply starstar_injective.
  - now intros ->.
  - intros H. apply (starstar_injective a1 0); auto.
    unfold word64, modulus. lia.
  - now intros ->.
Qed.

Lemma next_output_one_to_one_witness :
  fst (next (mkEngine (mkState 1 2 3 4))) = 0 <-> 2 = 0.
Proof. exact (proj2 (next_output_one_to_one _ _ wf_1234 wf_1234)). Defined.

(** ** [discard] *)

Lemma discard_loop_add (a b : nat) (e : Engine) :
  discard_loop (a + b) e = discard_loop b (discard_loop a e).
Proof.
  revert e. induction a as [| a IH]; intros e; [reflexivity|].
  cbn [Nat.add discard_loop]. apply IH.
Qed.

Lemma outputs_app (k n : nat) (e : Engine) :
  outputs (k + n) e = outputs k e ++ outputs n (discard_loop k e).
Proof.
  revert e. induction k as [| k IH]; intros e; [reflexivity|].
  cbn [Nat.add outputs discard_loop]. destruct (next e) as [r e'] eqn:E.
  cbn [snd]. now rewrite IH.
Qed.

(** X7. Skipping composes as long as the sum of the counts fits in 64 bits:
    for [a + b < 2^64], [discard(a + b)], the sum taken on [uint64_t], is
    [discard(a)] followed by [discard(b)]; [discard(0)] leaves the engine
    alone; and the words of an engine after [discard(a)] are those of the
    engine before it, less the first [a]. *)
Theorem discard_compose (e : Engine) (a b : nat) :
  Z.of_nat a + Z.of_nat b < 2 ^ 64 ->
  discard e (add64 (Z.of_nat a) (Z.of_nat b))
    = discard (discard e (Z.of_nat a)) (Z.of_nat b)
  /\ discard e 0 = e
  /\ forall n : nat,
       outputs n (discard e (Z.of_nat a)) = skipn a (outputs (a + n) e).
Proof.
  intros Hsum. unfold add64.
  rewrite wrap64_small by (unfold word64, modulus; lia).
  unfold discard. rewrite <- Nat2Z.inj_add, !Nat2Z.id.
  split; [apply discard_loop_add|]. split; [reflexivity|].
  intros n. rewrite outputs_app.
  rewrite skipn_app, outputs_length, Nat.sub_diag, skipn_all2
    by (rewrite outputs_length; lia).
  reflexivity.
Qed.

Lemma discard_compose_witness :
  discard (mkEngine (mkState 1 2 3 4)) (add64 2 3)
  = discard (discard (mkEngine (mkState 1 2 3 4)) 2) 3.
Proof.
  refine (proj1 (discard_compose (mkEngine (mkState 1 2 3 4)) 2 3 _)).
  cbn. lia.
Defined.

(** ** [operator==] *)

Lemma state_eqb_eq (a b : state_type) : state_eqb a b = true <-> a = b.
Proof.
  destruct a as [a0 a1 a2 a3], b as [b0 b1 b2 b3]. unfold state_eqb. cbn.
  rewrite !andb_true_iff, !Z.eqb_eq. split.
  - intros (((-> & ->) & ->) & ->). reflexivity.
  - intros H. injection H as -> -> -> ->. auto.
Qed.

(** X8. [operator==] holds exactly when the two states are the same, whatever
    the engines went through before; [operator!=] is its negation; and
    engines that compare equal return the same words from then on. *)
Theorem engine_eqb_spec (e1 e2 : Engine) :
  (engine_eqb e1 e2 = true <-> state e1 = state e2)
  /\ engine_neqb e1 e2 = negb (engine_eqb e1 e2)
  /\ (engine_eqb e1 e2 = true -> forall n : nat, outputs n e1 = outputs n e2)
  /\ (engine_eqb e1 e2 = engine_eqb e2 e1).
Proof.
  split; [apply state_eqb_eq|]. split; [reflexivity|]. split.
  - intros H n. apply state_eqb_eq in H.
    destruct e1 as [s1], e2 as [s2]. cbn in H. now subst.
  - unfold engine_eqb.
    destruct (state_eqb (state_ e1) (state_ e2)) eqn:E1,
             (state_eqb (state_ e2) (state_ e1)) eqn:E2; auto.
    + apply state_eqb_eq in E1. symmetry in E1. apply state_eqb_eq in E1. congruence.
    + apply state_eqb_eq in E2. symmetry in E2. apply state_eqb_eq in E2. congruence.
Qed.

(** ** Seeding *)

Lemma splitmix64_finish_word (z : Z) : word64 (splitmix64_finish z).
Proof.
  unfold splitmix64_finish. apply lxor_word; [|apply shr_word; [|lia]];
    apply wrap64_word.
Qed.

Lemma splitmix64_finish_injective (a b : Z) :
  word64 a -> word64 b -> splitmix64_finish a = splitmix64_finish b -> a = b.
Proof.
  intros Ha Hb H. unfold splitmix64_finish in H.
  apply xorshift_right_injective in H; [| apply wrap64_word .. | lia].
  apply mul64_injective in H;
    [| reflexivity | apply lxor_word; [|apply shr_word; [|lia]]; apply wrap64_word ..].
  apply xorshift_right_injective in H; [| apply wrap64_word .. | lia].
  apply mul64_injective in H;
    [| reflexivity | apply lxor_word; [|apply shr_word; [|lia]]; assumption ..].
  apply xorshift_right_injective in H; auto. lia.
Qed.

(** X2. [splitmix64] leaves and returns 64-bit words, and the word it returns
    determines the state it was called on: no two states mix to the same
    word. *)
Theorem splitmix64_one_to_one (s1 s2 : Z) :
  word64 s1 -> word64 s2 ->
  word64 (fst (splitmix64 s1)) /\ word64 (snd (splitmix64 s1))
  /\ (fst (splitmix64 s1) = fst (splitmix64 s2) -> s1 = s2)
  /\ (snd (splitmix64 s1) = snd (splitmix64 s2) -> s1 = s2).
Proof.
  intros H1 H2.
  change (fst (splitmix64 s1)) with (splitmix64_finish (add64 s1 0x9e3779b97f4a7c15)).
  change (fst (splitmix64 s2)) with (splitmix64_finish (add64 s2 0x9e3779b97f4a7c15)).
  change (snd (splitmix64 s1)) with (add64 s1 0x9e3779b97f4a7c15).
  change (snd (splitmix64 s2)) with (add64 s2 0x9e3779b97f4a7c15).
  split; [apply splitmix64_finish_word|]. split; [apply wrap64_word|]. split.
  - intros H. apply splitmix64_finish_injective in H; [| apply wrap64_word ..].
    now apply add64_injective in H.
  - now apply add64_injective.
Qed.

Lemma word64_5 : word64 5.
Proof. unfold word64, modulus. lia. Defined.

Lemma word64_7 : word64 7.
Proof. unfold word64, modulus. lia. Defined.

Lemma splitmix64_one_to_one_witness : word64 (fst (splitmix64 5)).
Proof. exact (proj1 (splitmix64_one_to_one 5 7 word64_5 word64_7)). Defined.

Lemma add64_wrap_l (a b : Z) : add64 (wrap64 a) b = wrap64 (a + b).
Proof. unfold add64, wrap64, modulus. now rewrite Z.add_mod_idemp_l by lia. Qed.

Lemma mixed_steps (s : Z) :
  let g := 0x9e3779b97f4a7c15 in
  wrap64 (s + 1 * g) = add64 s g
  /\ wrap64 (s + 2 * g) = add64 (add64 s g) g
  /\ wrap64 (s + 3 * g) = add64 (add64 (add64 s g) g) g
  /\ wrap64 (s + 4 * g) = add64 (add64 (add64 (add64 s g) g) g) g.
Proof.
  intros g. unfold add64 at 1 3 6 10. rewrite !add64_wrap_l.
  repeat split; f_equal; lia.
Qed.

Lemma add_random_bits_words (s : Z) (st : state_type) :
  snd (add_random_bits s st) =
    mkState (add64 (w0 st) (mixed 1 s)) (add64 (w1 st) (mixed 2 s))
            (add64 (w2 st) (mixed 3 s)) (add64 (w3 st) (mixed 4 s)).
Proof.
  destruct (mixed_steps s) as (E1 & E2 & E3 & E4).
  unfold mixed. rewrite E1, E2, E3, E4. reflexivity.
Qed.

Lemma add64_swap (a x y : Z) : add64 (add64 a x) y = add64 (add64 a y) x.
Proof. unfold add64 at 2 4. rewrite !add64_wrap_l. f_equal. lia. Qed.

Lemma mix_round_swap (st : state_type) (s t : Z) :
  mix_round (mix_round st s) t = mix_round (mix_round st t) s.
Proof.
  unfold mix_round. rewrite !add_random_bits_words. cbn [w0 w1 w2 w3].
  f_equal; apply add64_swap.
Qed.

Lemma fold_mix_round_permutation (ss ss' : list Z) :
  Permutation ss ss' ->
  forall st, fold_left mix_round ss st = fold_left mix_round ss' st.
Proof.
  induction 1 as [| x l l' _ IH | x y l | l l' l'' _ IH1 _ IH2]; intros st; cbn [fold_left].
  - reflexivity.
  - apply IH.
  - now rewrite mix_round_swap.
  - now rewrite IH1.
Qed.

Lemma mix_round_wf (st : state_type) (s : Z) : wf_state (mix_round st s).
Proof.
  unfold mix_round. rewrite add_random_bits_words.
  repeat split; apply wrap64_word.
Qed.

Lemma fix_all_zeros_wf (st : state_type) : wf_state st -> wf_state (fix_all_zeros st).
Proof.
  unfold fix_all_zeros. intros H.
  destruct (_ && _); [|exact H].
  destruct st as [s0 s1 s2 s3]. destruct H as (H0 & H1 & H2 & H3).
  split; [exact H0|]. split; [|split; [exact H2 | exact H3]].
  cbn. unfold word64, modulus. lia.
Qed.

Lemma well_mixed_wf : wf_state well_mixed.
Proof. unfold wf_state, well_mixed, word64, modulus. cbn. lia. Qed.

Lemma fold_mix_round_wf (ss : list Z) (st : state_type) :
  wf_state st -> wf_state (fold_left mix_round ss st).
Proof.
  revert st. induction ss as [| s ss IH]; intros st H; [exact H|].
  cbn [fold_left]. apply IH, mix_round_wf.
Qed.

(** X9. Seeding from a sequence does not depend on the order of its
    elements: each element is mixed on its own and added to the state, so
    two sequences with the same elements seed the same engine. *)
Theorem seed_seq_permutation (e e' : Engine) (ss ss' : list Z) :
  Permutation ss ss' -> seed_seq e ss = seed_seq e' ss'.
Proof.
  intros H. unfold seed_seq.
  change (fun st s => snd (add_random_bits s st)) with mix_round.
  now rewrite (fold_mix_round_permutation ss ss' H).
Qed.

Lemma seed_seq_permutation_witness :
  seed_seq (mkEngine zero_state) [1; 2; 3] = seed_seq (mkEngine zero_state) [3; 2; 1].
Proof.
  apply seed_seq_permutation.
  apply Permutation_trans with [2; 1; 3]; [apply perm_swap|].
  apply Permutation_trans with [2; 3; 1]; [apply perm_skip, perm_swap | apply perm_swap].
Defined.

(** X10. A sequence of one element seeds like that element alone, and the
    empty sequence gives the 256-step burn-in of the fixed constants; after
    either [seed] the state words are 64-bit words, each the constant of its
    slot plus the mixed words of the elements, the [k]-th slot taking the
    mixer's output at the element plus [k] increments. *)
Theorem seed_seq_small (e e' : Engine) (v : Z) (ss : list Z) :
  seed_seq e [v] = seed e' v
  /\ seed_seq e [] = discard (mkEngine well_mixed) 256
  /\ wf (seed e v) /\ wf (seed_seq e ss)
  /\ seed_seq e (ss ++ [v])
     = discard (mkEngine (fix_all_zeros
         (let st := fold_left (fun st s => snd (add_random_bits s st)) ss well_mixed in
          mkState (add64 (w0 st) (mixed 1 v)) (add64 (w1 st) (mixed 2 v))
                  (add64 (w2 st) (mixed 3 v)) (add64 (w3 st) (mixed 4 v))))) 256
  /\ (forall k s : Z, mixed k s = fst (splitmix64 (s + (k - 1) * 0x9e3779b97f4a7c15))).
Proof.
  split; [reflexivity|]. split; [reflexivity|]. split; [|split; [|split]].
  - unfold seed, discard. apply discard_loop_wf, fix_all_zeros_wf.
    apply (mix_round_wf well_mixed v).
  - unfold seed_seq, discard. apply discard_loop_wf, fix_all_zeros_wf.
    apply (fold_mix_round_wf ss), well_mixed_wf.
  - unfold seed_seq. rewrite fold_left_app. cbn [fold_left].
    now rewrite add_random_bits_words.
  - intros k s. unfold mixed.
    change (fst (splitmix64 (s + (k - 1) * 0x9e3779b97f4a7c15)))
      with (splitmix64_finish (add64 (s + (k - 1) * 0x9e3779b97f4a7c15) 0x9e3779b97f4a7c15)).
    unfold add64. do 2 f_equal. lia.
Qed.

(** X11. Different seeds give different engines: [seed] is one-to-one on
    64-bit seed values. *)
Theorem seed_one_to_one (e e' : Engine) (v1 v2 : Z) :
  word64 v1 -> word64 v2 -> (seed e v1 = seed e' v2 <-> v1 = v2).
Proof.
  intros H1 H2. split; [|now intros ->].
  intros H.
  change (seed e v1) with
    (discard_loop 256 (mkEngine (fix_all_zeros (mix_round well_mixed v1)))) in H.
  change (seed e' v2) with
    (discard_loop 256 (mkEngine (fix_all_zeros (mix_round well_mixed v2)))) in H.
  apply discard_loop_injective in H;
    try (apply fix_all_zeros_wf, (mix_round_wf well_mixed)).
  injection H as H.
  apply (f_equal w0) in H.
  assert (Hw0 : forall st, w0 (fix_all_zeros st) = w0 st).
  { intros st. unfold fix_all_zeros. now destruct (_ && _). }
  unfold mix_round in H.
  rewrite !Hw0, !add_random_bits_words in H. cbn [w0 well_mixed] in H.
  unfold add64 in H. rewrite !(Z.add_comm 0x5FAF84EE2AA04CFF) in H.
  apply (add64_injective _ _ 0x5FAF84EE2AA04CFF) in H;
    try apply splitmix64_finish_word.
  unfold mixed in H.
  apply splitmix64_finish_injective in H; try apply wrap64_word.
  apply (add64_injective _ _ (1 * 0x9e3779b97f4a7c15)) in H; auto.
Qed.

Lemma seed_one_to_one_witness :
  seed (mkEngine zero_state) 5 = seed (mkEngine zero_state) 7 <-> 5 = 7.
Proof. exact (seed_one_to_one _ _ 5 7 word64_5 word64_7). Defined.

(** ** [create_uint64_seed] *)

Lemma create_fold_permutation (ss ss' : list Z) :
  Permutation ss ss' ->
  forall a,
    fold_left (fun seed s => add64 seed (fst (splitmix64 s))) ss a
    = fold_left (fun seed s => add64 seed (fst (splitmix64 s))) ss' a.
Proof.
  induction 1 as [| x l l' _ IH | x y l | l l' l'' _ IH1 _ IH2]; intros a; cbn [fold_left].
  - reflexivity.
  - apply IH.
  - now rewrite add64_swap.
  - now rewrite IH1.
Qed.

(** X12. [create_uint64_seed] returns its fixed constant for the empty
    sequence, that constant plus the mixed element for one element, a 64-bit
    word whenever the sequence is not empty, and the same seed for two
    sequences with the same elements in any order. *)
Theorem create_uint64_seed_spec (ss ss' : list Z) (s : Z) :
  create_uint64_seed [] = 0xFD57D105591C980C
  /\ create_uint64_seed [s] = add64 0xFD57D105591C980C (fst (splitmix64 s))
  /\ create_uint64_seed (ss ++ [s]) = add64 (create_uint64_seed ss) (fst (splitmix64 s))
  /\ word64 (create_uint64_seed ss)
  /\ (Permutation ss ss' -> create_uint64_seed ss = create_uint64_seed ss').
Proof.
  split; [reflexivity|]. split; [reflexivity|].
  split; [unfold create_uint64_seed; now rewrite fold_left_app|].
  split.
  - unfold create_uint64_seed.
    destruct ss as [| x l] using rev_ind; [unfold word64, modulus; cbn; lia|].
    rewrite fold_left_app. cbn [fold_left]. apply wrap64_word.
  - intros H. unfold create_uint64_seed. now apply create_fold_permutation.
Qed.

(** ** [rotl] *)

(** X1. On a 64-bit word and for [0 < k < 64], [rotl] gives a 64-bit word
    whose bit [i] is bit [i - k] (modulo 64) of the argument, and rotating
    on by [64 - k] gives the argument back. *)
Theorem rotl_rotation (x k : Z) :
  word64 x -> 0 < k < 64 ->
  word64 (rotl x k)
  /\ (forall i, 0 <= i < 64 -> Z.testbit (rotl x k) i = Z.testbit x ((i - k) mod 64))
  /\ rotl (rotl x k) (64 - k) = x.
Proof.
  intros Hx Hk. split; [apply rotl_word; auto; lia|]. split.
  - intros i Hi. now apply rotl_testbit.
  - now apply rotl_inverse.
Qed.

Lemma rotl_rotation_witness : rotl (rotl 5 7) (64 - 7) = 5.
Proof.
  refine (proj2 (proj2 (rotl_rotation 5 7 word64_5 _))). lia.
Defined.

(** ** Halves of a word *)

(** X14. [random_u32_pair] splits a word into its low and high 32 bits: both
    are below [2^32], together they give the word back, and the second is
    what [random_u32] returns. *)
Theorem u32_pair_halves (u : Z) :
  word64 u ->
  let lo := fst (random_u32_pair u) in
  let hi := snd (random_u32_pair u) in
  0 <= lo < 2 ^ 32 /\ 0 <= hi < 2 ^ 32
  /\ lo + hi * 2 ^ 32 = u
  /\ hi = random_u32 u
  /\ random_u32 u = u / 2 ^ 32.
Proof.
  unfold word64, modulus. intros Hu. cbn [random_u32_pair fst snd].
  unfold random_u32, wrap32, shr64. rewrite Z.shiftr_div_pow2 by lia.
  assert (Hh : 0 <= u / 2 ^ 32 < 2 ^ 32).
  { split; [apply Z.div_pos; lia | apply Z.div_lt_upper_bound; lia]. }
  rewrite (Z.mod_small (u / 2 ^ 32)) by exact Hh.
  pose proof (Z.mod_pos_bound u (2 ^ 32) ltac:(lia)).
  pose proof (Z.div_mod u (2 ^ 32) ltac:(lia)).
  repeat split; lia.
Qed.

Lemma u32_pair_halves_witness :
  fst (random_u32_pair 5) + snd (random_u32_pair 5) * 2 ^ 32 = 5.
Proof. exact (proj1 (proj2 (proj2 (u32_pair_halves 5 word64_5)))). Defined.

(** ** [bits(b)] *)

(** X15. [bits(b)] is defined exactly for [1 <= b <= 64]; [bits(64)] is the
    whole word [bits()] returns and [bits(32)] is what [u32()] returns. *)
Theorem bits_b_domain (e : Engine) (b : Z) :
  (Random.bits_b e b = Undefined <-> b < 1 \/ 64 < b)
  /\ Random.bits_b e 64 = Returns (Random.bits e)
  /\ Random.bits_b e 32 = Returns (Random.u32 e).
Proof.
  unfold Random.bits_b, Random.u32, Random.bits.
  pose proof (next_word e) as Hw. destruct (next e) as [raw e']. cbn [fst] in Hw.
  split; [|split].
  - unfold shr64_checked, shift_defined.
    destruct (Z.leb_spec 0 (64 - b)) as [Hl | Hl],
             (Z.ltb_spec (64 - b) 64) as [Hr | Hr]; cbn [andb];
      split; intros H; try discriminate; try reflexivity; lia.
  - reflexivity.
  - unfold shr64_checked. change (shift_defined (64 - 32)) with true. cbv iota.
    change (64 - 32) with 32. unfold random_u32, wrap32, shr64.
    do 2 f_equal. symmetry.
    rewrite Z.shiftr_div_pow2 by lia.
    unfold word64, modulus in Hw.
    apply Z.mod_small. split; [apply Z.div_pos; lia | apply Z.div_lt_upper_bound; lia].
Qed.

(** ** [random_u64_limited], again *)

Lemma threshold_mod (max_value : Z) :
  0 < max_value < 2 ^ 64 -> threshold max_value = 2 ^ 64 mod max_value.
Proof.
  intros H. rewrite threshold_eq by exact H.
  replace (2 ^ 64 - max_value) with (2 ^ 64 + (-1) * max_value) by lia.
  apply Z.mod_add. lia.
Qed.

(** With no fuel for a second word, the call returns on an accepted first
    word and is still looping on a rejected one. *)
Lemma single_draw {G : Type} (get : G -> Z * G) (max_value : Z) (g : G) :
  word64 (fst (get g)) -> 0 < max_value < 2 ^ 64 ->
  random_u64_limited get 0 max_value g
  = if accepted max_value (fst (get g))
    then Returns (fst (get g) * max_value / 2 ^ 64, snd (get g))
    else OutOfFuel.
Proof.
  intros Hx Hm. unfold random_u64_limited, accepted.
  destruct (get g) as [x g1]. cbn [fst snd] in *.
  rewrite product_fits by assumption.
  pose proof (threshold_lt max_value ltac:(lia)) as Ht.
  unfold umod64. destruct (Z.eqb_spec max_value 0) as [E | _]; [lia|].
  fold (threshold max_value). cbn [redraw].
  destruct (Z.ltb_spec (wrap64 (x * max_value)) max_value) as [Hlt | Hge].
  - destruct (Z.ltb_spec (wrap64 (x * max_value)) (threshold max_value)) as [Hr | Ha].
    + destruct (Z.leb_spec (threshold max_value) (wrap64 (x * max_value))); [lia | reflexivity].
    + destruct (Z.leb_spec (threshold max_value) (wrap64 (x * max_value))); [|lia].
      now rewrite high_half.
  - destruct (Z.leb_spec (threshold max_value) (wrap64 (x * max_value))); [|lia].
    now rewrite high_half.
Qed.

(** X16. For a bound that is a power of two, [2^k] with [0 <= k < 64], no word
    is rejected: the call returns after one word, with its top [k] bits; for
    [1 <= k] this is what [bits(k)] returns. *)
Theorem u64_limited_power_of_two {G : Type} (get : G -> Z * G) (k : Z) (fuel : nat) (g : G) :
  (forall g', word64 (fst (get g'))) ->
  0 <= k < 64 ->
  random_u64_limited get fuel (2 ^ k) g
    = Returns (Z.shiftr (fst (get g)) (64 - k), snd (get g))
  /\ (forall x, accepted (2 ^ k) x = true)
  /\ (1 <= k -> forall e : Engine,
        Random.u64_limited fuel e (2 ^ k) = Random.bits_b e k).
Proof.
  intros Hget Hk.
  assert (Hp : 0 < 2 ^ k < 2 ^ 64).
  { split; [apply Z.pow_pos_nonneg; lia | apply Z.pow_lt_mono_r; lia]. }
  assert (Ht : threshold (2 ^ k) = 0).
  { rewrite threshold_mod by exact Hp.
    replace 64 with (k + (64 - k)) by lia. rewrite Z.pow_add_r by lia.
    rewrite Z.mul_comm. apply Z.mod_mul. lia. }
  assert (Hacc : forall x, accepted (2 ^ k) x = true).
  { intros x. unfold accepted. rewrite Ht. apply Z.leb_le.
    pose proof (wrap64_word (x * 2 ^ k)) as Hw. unfold word64 in Hw. lia. }
  assert (Hone : forall (G' : Type) (get' : G' -> Z * G') (g' : G'),
             (forall g0, word64 (fst (get' g0))) ->
             random_u64_limited get' fuel (2 ^ k) g'
             = Returns (Z.shiftr (fst (get' g')) (64 - k), snd (get' g'))).
  { intros G' get' g' Hw.
    rewrite (random_u64_limited_first_accepted get' Hw (2 ^ k) Hp g' 0 fuel);
      [| intros i Hi; lia | apply Hacc | lia].
    unfold draw. cbn [after]. do 2 f_equal.
    rewrite Z.shiftr_div_pow2 by lia.
    replace (2 ^ 64) with (2 ^ k * 2 ^ (64 - k))
      by (rewrite <- Z.pow_add_r by lia; f_equal; lia).
    rewrite Z.mul_comm, Z.div_mul_cancel_l; try reflexivity;
      apply Z.pow_nonzero; lia. }
  split; [now apply Hone|]. split; [exact Hacc|].
  intros Hk1 e. unfold Random.u64_limited. rewrite Hone by apply next_word.
  unfold Random.bits_b, Random.bits, shr64_checked, shift_defined.
  destruct (next e) as [raw e']. cbn [fst snd].
  destruct (Z.leb_spec 0 (64 - k)); [|lia].
  destruct (Z.ltb_spec (64 - k) 64); [|lia]. reflexivity.
Qed.

Lemma u64_limited_power_of_two_witness :
  Random.u64_limited 0 (mkEngine (mkState 1 2 3 4)) (2 ^ 8)
  = Returns (0, snd (next (mkEngine (mkState 1 2 3 4)))).
Proof.
  refine (proj1 (u64_limited_power_of_two next 8 0 (mkEngine (mkState 1 2 3 4))
                   next_word _)). lia.
Defined.

Lemma ceil_le (a d y : Z) : 0 < d -> ((a + d - 1) / d <= y <-> a <= y * d).
Proof.
  intros Hd. pose proof (Z.div_mod (a + d - 1) d ltac:(lia)) as E.
  pose proof (Z.mod_pos_bound (a + d - 1) d Hd) as B.
  split; intros H; nia.
Qed.

(** X17. The call returns [v] on its first word exactly when that word lies
    in a run of [2^64 / max_value] consecutive words, starting where
    [v * 2^64 + threshold] is reached: every value below [max_value] is
    returned for the same number of words. *)
Theorem u64_limited_uniform {G : Type} (get : G -> Z * G) (max_value v : Z) (g : G) :
  word64 (fst (get g)) ->
  0 < max_value < 2 ^ 64 ->
  0 <= v < max_value ->
  let x := fst (get g) in
  let first := (v * 2 ^ 64 + threshold max_value + max_value - 1) / max_value in
  (random_u64_limited get 0 max_value g = Returns (v, snd (get g))
   <-> first <= x < first + 2 ^ 64 / max_value)
  /\ 0 <= first /\ first + 2 ^ 64 / max_value <= 2 ^ 64.
Proof.
  intros Hx Hm Hv x first.
  pose proof (threshold_lt max_value ltac:(lia)) as Ht.
  pose proof (threshold_mod max_value Hm) as Htm.
  pose proof (Z.div_mod (2 ^ 64) max_value ltac:(lia)) as HM.
  rewrite <- Htm in HM.
  set (q := 2 ^ 64 / max_value) in *.
  set (A := v * 2 ^ 64 + threshold max_value).
  assert (Hq : 0 < q) by (apply Z.div_str_pos; lia).
  assert (Hlo : forall y, first <= y <-> A <= y * max_value).
  { intros y. apply ceil_le. lia. }
  assert (Hin : first <= x < first + q <-> A <= x * max_value < A + q * max_value).
  { rewrite (Hlo x). split; intros [H1 H2]; split; auto.
    - assert (~ first <= x - q) as Hn by lia. rewrite Hlo in Hn. lia.
    - assert (~ first <= x - q) as Hn by (rewrite Hlo; lia). lia. }
  split; [|split].
  - rewrite single_draw by assumption. fold x. rewrite Hin.
    unfold accepted.
    pose proof (Z.div_mod (x * max_value) (2 ^ 64) ltac:(lia)) as Hdm.
    pose proof (Z.mod_pos_bound (x * max_value) (2 ^ 64) ltac:(lia)) as Hb.
    unfold wrap64, modulus.
    destruct (Z.leb_spec (threshold max_value) ((x * max_value) mod 2 ^ 64)) as [Ha | Hr].
    + split.
      * intros H. injection H as H. unfold A. nia.
      * intros [H1 H2]. do 2 f_equal. unfold A in *. nia.
    + split; [discriminate|].
      intros [H1 H2]. exfalso. unfold A in *.
      assert (x * max_value / 2 ^ 64 = v) by nia. nia.
  - assert (~ first <= -1) as Hn by (rewrite Hlo; unfold A; nia). lia.
  - assert (first <= 2 ^ 64 - q) by (rewrite Hlo; unfold A; nia). lia.
Qed.

Lemma u64_limited_uniform_witness :
  random_u64_limited next 0 3 (mkEngine (mkState 1 2 3 4))
    = Returns (0, snd (next (mkEngine (mkState 1 2 3 4))))
  <-> (0 * 2 ^ 64 + threshold 3 + 3 - 1) / 3
        <= fst (next (mkEngine (mkState 1 2 3 4)))
        < (0 * 2 ^ 64 + threshold 3 + 3 - 1) / 3 + 2 ^ 64 / 3.
Proof.
  refine (proj1 (u64_limited_uniform next 3 0 (mkEngine (mkState 1 2 3 4))
                   (next_word _) _ _)); lia.
Defined.

(** ** Fixed points *)

Lemma lxor_fixed (a b : Z) : Z.lxor a b = a -> b = 0.
Proof.
  intros H. apply (lxor_cancel_l a). now rewrite Z.lxor_0_r.
Qed.

(** X6. The all-zero state is the only one [next()] leaves unchanged. *)
Theorem next_fixed_point (e : Engine) :
  snd (next e) = e <-> state_ e = zero_state.
Proof.
  destruct e as [[s0 s1 s2 s3]]. unfold zero_state. cbn. split.
  - intros H. injection H as H0 H1 H2 H3.
    apply lxor_fixed in H0. apply lxor_fixed in H1.
    rewrite H0 in H3. change (rotl 0 45) with 0 in H3. subst s3.
    rewrite Z.lxor_0_l in H0. subst s1.
    rewrite H1 in H2. change (Z.lxor 0 (shl64 0 17)) with 0 in H2. subst s2.
    rewrite Z.lxor_0_l in H1. now subst s0.
  - intros H. injection H as -> -> -> ->. reflexivity.
Qed.

(** ** The default seed sequence *)

(** X13. The default seed sequence starts with its fixed constant and has
    three or four elements; exchanging the clock reading and the process id
    changes neither the engine seeded from it nor the seed
    [create_uint64_seed] makes of it. *)
Theorem create_seed_seq_exchange (cxx11 : bool) (clock pid rd1 rd2 : Z) :
  hd 0 (create_seed_seq cxx11 clock pid rd1 rd2) = 0xC8F978DB0B32F62E
  /\ length (create_seed_seq cxx11 clock pid rd1 rd2) = (if cxx11 then 4 else 3)%nat
  /\ Forall word64 (create_seed_seq cxx11 clock pid rd1 rd2)
  /\ make_engine_seq (create_seed_seq cxx11 clock pid rd1 rd2)
     = make_engine_seq (create_seed_seq cxx11 pid clock rd1 rd2)
  /\ create_uint64_seed (create_seed_seq cxx11 clock pid rd1 rd2)
     = create_uint64_seed (create_seed_seq cxx11 pid clock rd1 rd2).
Proof.
  assert (Hc : word64 0xC8F978DB0B32F62E) by (unfold word64, modulus; lia).
  assert (Hp : Permutation (create_seed_seq cxx11 clock pid rd1 rd2)
                           (create_seed_seq cxx11 pid clock rd1 rd2)).
  { unfold create_seed_seq. destruct cxx11; cbn [app];
      apply perm_skip, perm_swap. }
  split; [now destruct cxx11|]. split; [now destruct cxx11|]. split; [|split].
  - unfold create_seed_seq. destruct cxx11; cbn [app];
      repeat (apply Forall_cons; [first [exact Hc | apply wrap64_word] |]);
      apply Forall_nil.
  - unfold make_engine_seq, seed_seq.
    change (fun st s => snd (add_random_bits s st)) with mix_round.
    now rewrite (fold_mix_round_permutation _ _ Hp).
  - unfold create_uint64_seed. now apply create_fold_permutation.
Qed.
